(** * Completion providers and paste handler of the note editor

    A shallow embedding of [src/components/note-editor.tsx]: the three
    completion sources handed to CodeMirror's [autocompletion]
    ([dateCompletion], [noteCompletion], [tagCompletion]) and the [paste]
    DOM event handler.

    JavaScript strings are sequences of UTF-16 code units; offsets into the
    document count code units, a line break counting for one.  Regular
    expressions of the source are kept as syntax and run by a derivative
    matcher.  The editor, the note store and the clock are threaded through
    a small state-and-error monad, in which a thrown error keeps the
    effects that came before it. *)

From Stdlib Require Import String Ascii.
From Stdlib Require Import List Bool Arith NArith ZArith Lia.
Import ListNotations.

Set Implicit Arguments.

(** ** JavaScript strings *)

Module Js.

Definition cu := N.
Definition jsstring := list cu.

(** An ASCII literal as a JavaScript string. *)
Definition lit (s : String.string) : jsstring :=
  map N_of_ascii (String.list_ascii_of_string s).
Arguments lit s%_string.

(** One ASCII character as a code unit. *)
Definition ch (a : ascii) : cu := N_of_ascii a.
Arguments ch a%_char.

Definition LF : cu := 10%N.         (* the line break of a document *)
Definition CR : cu := 13%N.         (* the carriage return *)
Definition DQUOTE : cu := 34%N.     (* the double quote *)

(** [a === b] on strings. *)
Fixpoint eqb (a b : jsstring) : bool :=
  match a, b with
  | [], [] => true
  | x :: a', y :: b' => N.eqb x y && eqb a' b'
  | _, _ => false
  end.

(** Truthiness of a string: every string but the empty one. *)
Definition truthy (s : jsstring) : bool :=
  match s with [] => false | _ :: _ => true end.

(** [a || b] on strings. *)
Definition or (a b : jsstring) : jsstring := if truthy a then a else b.

(** [s.slice(a, b)] and [doc.sliceString(a, b)] for offsets [a], [b] that
    are not negative: both clamp to the length of [s]. *)
Definition slice (s : jsstring) (a b : nat) : jsstring :=
  firstn (b - a) (skipn a s).

(** [s.padStart(n, fill)] with a one-unit [fill]. *)
Definition padStart (n : nat) (fill : cu) (s : jsstring) : jsstring :=
  repeat fill (n - length s) ++ s.

(** The decimal digits of [n], the most significant first; [fuel] bounds
    their number. *)
Fixpoint digits (fuel : nat) (n : N) : jsstring :=
  match fuel with
  | O => []
  | S fuel' =>
      (if N.ltb n 10 then [] else digits fuel' (N.div n 10))
      ++ [N.add 48 (N.modulo n 10)]
  end.

(** [String(z)] and [z.toString()] for an integer [z] printed without
    exponent (every value of [Date.now], [getFullYear], [getMonth],
    [getDate]): a minus sign for a negative [z], then the digits of its
    magnitude, which are no more than its bits. *)
Definition ofZ (z : Z) : jsstring :=
  let n := Z.abs_N z in
  (if Z.ltb z 0 then [ch "-"] else []) ++ digits (S (N.to_nat (N.log2 n))) n.

End Js.

Import Js.

(** ** Regular expressions *)

Module Re.

(** An item of a character class. *)
Inductive item :=
| IChar (c : cu)        (* a literal unit *)
| IWord                 (* \w *)
| IDigit.               (* \d *)

Definition between (lo hi c : N) : bool := (N.leb lo c && N.leb c hi)%N.

Definition isDigit (c : cu) : bool := between 48 57 c.
Definition isUpper (c : cu) : bool := between 65 90 c.
Definition isLower (c : cu) : bool := between 97 122 c.
Definition isLetter (c : cu) : bool := isUpper c || isLower c.
Definition isWord (c : cu) : bool := isLetter c || isDigit c || N.eqb c 95.

Definition inItem (c : cu) (i : item) : bool :=
  match i with
  | IChar d => N.eqb c d
  | IWord => isWord c
  | IDigit => isDigit c
  end.

Inductive regex :=
| Void                              (* matches nothing *)
| Eps                               (* the empty string *)
| Set_ (items : list item)          (* [...] *)
| NotSet (items : list item)        (* [^...] *)
| Cat (r1 r2 : regex)
| Alt (r1 r2 : regex)               (* r1|r2 *)
| Star (r : regex).                 (* r* *)

Definition Chr (c : cu) : regex := Set_ [IChar c].
Definition Opt (r : regex) : regex := Alt r Eps.     (* r? *)
Definition Lit (s : jsstring) : regex := fold_right (fun c r => Cat (Chr c) r) Eps s.

Definition accepts (neg : bool) (items : list item) (c : cu) : bool :=
  xorb neg (existsb (inItem c) items).

Fixpoint nullable (r : regex) : bool :=
  match r with
  | Void => false
  | Eps => true
  | Set_ _ | NotSet _ => false
  | Cat r1 r2 => nullable r1 && nullable r2
  | Alt r1 r2 => nullable r1 || nullable r2
  | Star _ => true
  end.

Fixpoint deriv (c : cu) (r : regex) : regex :=
  match r with
  | Void | Eps => Void
  | Set_ items => if accepts false items c then Eps else Void
  | NotSet items => if accepts true items c then Eps else Void
  | Cat r1 r2 =>
      if nullable r1 then Alt (Cat (deriv c r1) r2) (deriv c r2)
      else Cat (deriv c r1) r2
  | Alt r1 r2 => Alt (deriv c r1) (deriv c r2)
  | Star r1 => Cat (deriv c r1) (Star r1)
  end.

(** The whole of [s] is a match of [r]. *)
Fixpoint matches (r : regex) (s : jsstring) : bool :=
  match s with
  | [] => nullable r
  | c :: s' => matches (deriv c r) s'
  end.

(** [str.search] of [r] anchored at the end, as [matchBefore] runs it: the
    least offset whose suffix is a match of [r]; [None] for the -1 of
    JavaScript. *)
Fixpoint searchToEnd (r : regex) (str : jsstring) : option nat :=
  if matches r str then Some 0
  else match str with
       | [] => None
       | _ :: rest => option_map S (searchToEnd r rest)
       end.

(** [test] of [r] anchored at the start: some prefix of [s] is a match of
    [r]. *)
Fixpoint testPrefix (r : regex) (s : jsstring) : bool :=
  nullable r ||
  match s with
  | [] => false
  | c :: s' => testPrefix (deriv c r) s'
  end.

(** The strings a regular expression denotes. *)
Inductive lang : regex -> jsstring -> Prop :=
| LEps : lang Eps []
| LSet items c : accepts false items c = true -> lang (Set_ items) [c]
| LNotSet items c : accepts true items c = true -> lang (NotSet items) [c]
| LCat r1 r2 s1 s2 : lang r1 s1 -> lang r2 s2 -> lang (Cat r1 r2) (s1 ++ s2)
| LAltL r1 r2 s : lang r1 s -> lang (Alt r1 r2) s
| LAltR r1 r2 s : lang r2 s -> lang (Alt r1 r2) s
| LStarNil r : lang (Star r) []
| LStarApp r s1 s2 : lang r s1 -> lang (Star r) s2 -> lang (Star r) (s1 ++ s2).

End Re.

Import Re.

(** ** The editor (CodeMirror) as the source uses it *)

Module Editor.

Record SelectionRange := { anchor : nat; head : nat }.

Definition rangeFrom (r : SelectionRange) : nat := Nat.min (anchor r) (head r).
Definition rangeTo (r : SelectionRange) : nat := Nat.max (anchor r) (head r).

Record EditorSelection := { ranges : list SelectionRange; mainIndex : nat }.

(** [view.state]: the document, line breaks being single [LF] units, and
    the selection. *)
Record EditorState := { doc : jsstring; selection : EditorSelection }.

(** The selection [{anchor: a}] of a transaction: one cursor. *)
Definition cursorAt (a : nat) : EditorSelection :=
  {| ranges := [{| anchor := a; head := a |}]; mainIndex := 0 |}.

Record ChangeSpec := { ch_from : nat; ch_to : nat; insert : jsstring }.

(** The argument of [view.dispatch]: [{changes, selection: {anchor}}]. *)
Record TransactionSpec := { changes : ChangeSpec; sel_anchor : nat }.

(** An inserted string as the document takes it.  CodeMirror splits the
    string into lines at a carriage return followed by a line feed, at a
    lone carriage return and at a line feed, and a document counts one
    unit for a line break: each of the three becomes the single [LF]. *)
Fixpoint lineBreaks (s : jsstring) : jsstring :=
  match s with
  | [] => []
  | c :: s' =>
      if N.eqb c CR then
        LF :: match s' with
              | d :: s'' => if N.eqb d LF then lineBreaks s'' else lineBreaks s'
              | [] => []
              end
      else c :: lineBreaks s'
  end.

(** [state.update(spec).state].  The inserted string enters the document
    through [lineBreaks]; the selection is taken as the transaction gives
    it.  CodeMirror throws a RangeError, [None] here, for a change range
    that is reversed or runs beyond the document and for a selection
    beyond the new document. *)
Definition update (st : EditorState) (tr : TransactionSpec) : option EditorState :=
  let c := changes tr in
  if (ch_from c <=? ch_to c) && (ch_to c <=? length (doc st)) then
    let doc' :=
      firstn (ch_from c) (doc st) ++ lineBreaks (insert c) ++ skipn (ch_to c) (doc st) in
    if sel_anchor tr <=? length doc'
    then Some {| doc := doc'; selection := cursorAt (sel_anchor tr) |}
    else None
  else None.

(** [doc.lineAt(pos)], for [pos] within the document: the line around
    [pos] runs from the last line break before [pos] to the first one at
    or after it. *)
Record Line := { l_from : nat; l_to : nat; l_text : jsstring }.

Fixpoint upToBreak (d : jsstring) : jsstring :=
  match d with
  | [] => []
  | c :: d' => if N.eqb c LF then [] else c :: upToBreak d'
  end.

Definition lineAt (d : jsstring) (pos : nat) : Line :=
  let before := rev (upToBreak (rev (firstn pos d))) in
  let after := upToBreak (skipn pos d) in
  {| l_from := pos - length before;
     l_to := pos + length after;
     l_text := before ++ after |}.

(** The argument of a completion source. *)
Record CompletionContext := { state : EditorState; pos : nat }.

(** What [matchBefore] returns: [{from, to, text}]. *)
Record Match := { m_from : nat; m_to : nat; text : jsstring }.

(** [context.matchBefore(expr)] of @codemirror/autocomplete: the part of
    the line before the cursor, at most 250 units of it, is searched for
    the first offset from which [expr] matches up to the cursor. *)
Definition matchBefore (context : CompletionContext) (expr : regex) : option Match :=
  let line := lineAt (doc (state context)) (pos context) in
  let start := Nat.max (l_from line) (pos context - 250) in
  let str := slice (l_text line) (start - l_from line) (pos context - l_from line) in
  match searchToEnd expr str with
  | None => None
  | Some found =>
      Some {| m_from := start + found; m_to := pos context;
              text := skipn found str |}
  end.

End Editor.

Import Editor.

(** ** The world the apply callbacks act on *)

(** The object literal handed to [upsertNote]. *)
Module Draft.
Record note := { id : jsstring; rawBody : jsstring }.
End Draft.

(** A note as [searchNotes] hands it out, of which the editor reads the
    body and the title. *)
Record Note := { rawBody : jsstring; title : option jsstring }.

(** What [parseDate] of chrono-node returns, read through [getFullYear],
    [getMonth] and [getDate]. *)
Record JsDate := { getFullYear : Z; getMonth : Z; getDate : Z }.

(** The editor view, the note store and the clock [Date.now] reads. *)
Record World (Store : Type) := { view : EditorState; store : Store; clock : Z }.

Arguments view {Store} _.
Arguments store {Store} _.
Arguments clock {Store} _.

(** What an effect leaves: the value it returned or the error it threw,
    and in both cases the world as it stood then. *)
Inductive Outcome (Store A : Type) : Type :=
| Returned (a : A) (w : World Store)
| Thrown (w : World Store).

Arguments Returned {Store A} a w.
Arguments Thrown {Store A} w.

(** Effects: a state monad over the world in which an error ends the
    computation and keeps what was done before. *)
Definition M (Store A : Type) : Type := World Store -> Outcome Store A.

Definition ret {Store A} (a : A) : M Store A := fun w => Returned a w.

Definition bind {Store A B} (m : M Store A) (k : A -> M Store B) : M Store B :=
  fun w => match m w with
           | Returned a w' => k a w'
           | Thrown w' => Thrown w'
           end.

Notation "x <- m ;; k" := (bind m (fun x => k))
  (at level 61, m at next level, right associativity).
Notation "m ;;; k" := (bind m (fun _ => k))
  (at level 61, right associativity).

(** [view.state.sliceDoc(from, to)] *)
Definition sliceDoc {Store} (from to : nat) : M Store jsstring :=
  fun w => Returned (slice (doc (view w)) from to) w.

(** [view.dispatch(spec)]: the view takes the new state, or the error of
    [update] is thrown and the view stays as it is. *)
Definition dispatch {Store} (tr : TransactionSpec) : M Store unit :=
  fun w => match update (view w) tr with
           | Some st => Returned tt {| view := st; store := store w; clock := clock w |}
           | None => Thrown w
           end.

(** [Date.now()] *)
Definition Date_now {Store} : M Store Z := fun w => Returned (clock w) w.

(** A completion option with the fields the source sets; [apply] is given
    the view through the world, then [from] and [to]. *)
Record Completion (Store : Type) := {
  label : jsstring;
  detail : option jsstring;
  info : option jsstring;
  apply : option (nat -> nat -> M Store unit)
}.

Record CompletionResult (Store : Type) := {
  from : nat;
  options : list (Completion Store);
  filter : option bool
}.

(** ** The regular expressions of the source *)

(** The expression of [dateCompletion], a group of two alternatives:
    [\[\[[^\]|^|]*] and [\w*]. *)
Definition datePattern : regex :=
  Alt (Cat (Lit (lit "[["))
           (Star (NotSet [IChar (ch "]"); IChar (ch "|"); IChar (ch "^"); IChar (ch "|")])))
      (Star (Set_ [IWord])).

(** [/#[\w\-_\d/]*/] *)
Definition tagPattern : regex :=
  Cat (Chr (ch "#"))
      (Star (Set_ [IWord; IChar (ch "-"); IChar (ch "_"); IDigit; IChar (ch "/")])).

(** [/\[\[[^\]|^|]*/] *)
Definition notePattern : regex :=
  Cat (Lit (lit "[["))
      (Star (NotSet [IChar (ch "]"); IChar (ch "|"); IChar (ch "^"); IChar (ch "|")])).

(** [/^https?:\/\//], the anchor being in [testPrefix]. *)
Definition urlPattern : regex :=
  Cat (Lit (lit "http")) (Cat (Opt (Chr (ch "s"))) (Lit (lit "://"))).

(** [s.replace] of the anchored literal [p] by the empty string: a leading
    [p] is dropped. *)
Definition replaceLeading (p s : jsstring) : jsstring :=
  if Js.eqb (firstn (length p) s) p then skipn (length p) s else s.

(** ** The completion sources *)

(** The [dateString] of [dateCompletion]: year, month and day of the
    parsed date, padded with zeros and joined by hyphens. *)
Definition dateStringOf (date : JsDate) : jsstring :=
  let year := padStart 4 (ch "0") (ofZ (getFullYear date)) in
  let month := padStart 2 (ch "0") (ofZ (getMonth date + 1)) in
  let day := padStart 2 (ch "0") (ofZ (getDate date)) in
  year ++ lit "-" ++ month ++ lit "-" ++ day.

Section Providers.

(** The collaborators: chrono-node, [../utils/date],
    [../utils/parse-frontmatter], [useSearchNotes], [upsertNoteAtom] and
    [tagsAtom], the latter read as its own keys in the order of
    [Object.keys]. *)
Variable Store : Type.
Variable parseDate : jsstring -> option JsDate.
Variable formatDate : jsstring -> jsstring.
Variable formatDateDistance : jsstring -> jsstring.
Variable parseFrontmatter_content : jsstring -> jsstring.
Variable searchNotes : jsstring -> list (jsstring * option Note).
Variable upsertNoteAtom : Draft.note -> Store -> Store.
Variable getTags : unit -> list (jsstring * list jsstring).

(** [upsertNote(note)] *)
Definition upsertNote (note : Draft.note) : M Store unit :=
  fun w => Returned tt {| view := view w; store := upsertNoteAtom note (store w);
                          clock := clock w |}.

Definition Object_keys (o : list (jsstring * list jsstring)) : list jsstring :=
  map fst o.

Definition dateCompletion (context : CompletionContext) : option (CompletionResult Store) :=
  match matchBefore context datePattern with
  | None => None
  | Some word =>
      let query := replaceLeading (lit "[[") (text word) in
      if negb (truthy query) then None
      else
        match parseDate query with
        | None => None
        | Some date =>
            let dateString := dateStringOf date in
            Some {| from := m_from word;
                    options :=
                      [ {| label := formatDate dateString;
                           detail := Some (formatDateDistance dateString);
                           info := None;
                           apply := Some (fun from to =>
                             let text := lit "[[" ++ dateString ++ lit "]]" in
                             next <- sliceDoc to (to + 2) ;;
                             let hasClosingBrackets := Js.eqb next (lit "]]") in
                             dispatch
                               {| changes :=
                                    {| ch_from := from;
                                       ch_to := if hasClosingBrackets then to + 2 else to;
                                       insert := text |};
                                  sel_anchor := from + length text |}) |} ];
                    filter := Some false |}
        end
  end.

Definition tagCompletion (context : CompletionContext) : option (CompletionResult Store) :=
  match matchBefore context tagPattern with
  | None => None
  | Some word =>
      let tags := Object_keys (getTags tt) in
      Some {| from := m_from word + 1;
              options := map (fun name => {| label := name; detail := None;
                                             info := None; apply := None |}) tags;
              filter := None |}
  end.

Definition createNewNoteOption (query : jsstring) : Completion Store :=
  {| label := lit "Create new note " ++ [DQUOTE] ++ query ++ [DQUOTE];
     detail := None;
     info := None;
     apply := Some (fun from to =>
       now <- Date_now ;;
       let note := {| Draft.id := ofZ now;
                      Draft.rawBody := lit "# " ++ query ++ [LF; LF] ++ lit "#inbox" |} in
       upsertNote note ;;;
       let text := lit "[[" ++ Draft.id note ++ lit "|" ++ query ++ lit "]]" in
       next <- sliceDoc to (to + 2) ;;
       let hasClosingBrackets := Js.eqb next (lit "]]") in
       dispatch
         {| changes :=
              {| ch_from := from;
                 ch_to := if hasClosingBrackets then to + 2 else to;
                 insert := text |};
            sel_anchor := from + length text |}) |}.

(** The conditional on [note?.title] in the link text: a bar and the title
    when the title is truthy, nothing otherwise. *)
Definition titleSuffix (note : option Note) : jsstring :=
  match note with
  | Some n =>
      match title n with
      | Some t => if truthy t then lit "|" ++ t else []
      | None => []
      end
  | None => []
  end.

(** The callback mapped over the search results. *)
Definition noteOption (result : jsstring * option Note) : Completion Store :=
  let (id, note) := result in
  let content :=
    parseFrontmatter_content
      (Js.or (match note with Some n => rawBody n | None => [] end) []) in
  {| label := Js.or content [];
     detail := None;
     info := Some content;
     apply := Some (fun from to =>
       let text := lit "[[" ++ id ++ titleSuffix note ++ lit "]]" in
       next <- sliceDoc to (to + 2) ;;
       let hasClosingBrackets := Js.eqb next (lit "]]") in
       dispatch
         {| changes :=
              {| ch_from := from;
                 ch_to := if hasClosingBrackets then to + 2 else to;
                 insert := text |};
            sel_anchor := from + length text |}) |}.

Definition noteCompletion (context : CompletionContext) : option (CompletionResult Store) :=
  match matchBefore context notePattern with
  | None => None
  | Some word =>
      let query := skipn 2 (text word) in
      let searchResults := searchNotes query in
      let options := map noteOption (firstn 5 searchResults) in
      let options := if truthy query then options ++ [createNewNoteOption query]
                     else options in
      Some {| from := m_from word; options := options; filter := Some false |}
  end.

End Providers.

Arguments dateCompletion {Store} _ _ _ _.
Arguments tagCompletion {Store} _ _.
Arguments noteOption {Store} _ _.
Arguments noteCompletion {Store} _ _ _ _.
Arguments createNewNoteOption {Store} _ _.
Arguments upsertNote {Store} _ _ _.

(** ** The paste handler *)

(** A paste event: the text/plain payload of its clipboard data, if it has
    clipboard data, and whether [preventDefault] was called. *)
Record ClipboardEvent := { clipboardData : option jsstring; defaultPrevented : bool }.

Definition preventDefault (event : ClipboardEvent) : ClipboardEvent :=
  {| clipboardData := clipboardData event; defaultPrevented := true |}.

(** What a paste leaves: the view, the event, and the calls of [onPaste]
    with their arguments. *)
Record PasteOutcome := {
  p_view : EditorState;
  p_event : ClipboardEvent;
  p_onPaste : list (ClipboardEvent * EditorState)
}.

(** The [paste] handler; [onPaste] tells whether the caller gave the
    optional callback.  [None] for an error thrown by [dispatch]. *)
Definition paste (onPaste : bool) (event : ClipboardEvent) (view : EditorState)
  : option PasteOutcome :=
  let clipboardText := match clipboardData event with Some t => t | None => [] end in
  let isUrl := testPrefix urlPattern clipboardText in
  let handled :=
    if isUrl then
      let sel := selection view in
      let (from, to) :=
        match nth_error (ranges sel) (mainIndex sel) with
        | Some r => (rangeFrom r, rangeTo r)
        | None => (0, 0)
        end in
      let selectedText := slice (doc view) from to in
      let markdown :=
        if truthy selectedText
        then lit "[" ++ selectedText ++ lit "](" ++ clipboardText ++ lit ")"
        else clipboardText in
      match update view {| changes := {| ch_from := from; ch_to := to; insert := markdown |};
                           sel_anchor := from + length markdown |} with
      | Some view' => Some (view', preventDefault event)
      | None => None
      end
    else Some (view, event) in
  match handled with
  | Some (view', event') =>
      Some {| p_view := view'; p_event := event';
              p_onPaste := if onPaste then [(event', view')] else [] |}
  | None => None
  end.

(** ** Vocabulary of the specification *)

Module Spec.

(** The text ending at the cursor that a completion source can match: the
    part of the cursor's line before the cursor, at most 250 units of it. *)
Definition lineBefore (context : CompletionContext) : jsstring :=
  let before := rev (upToBreak (rev (firstn (pos context) (doc (state context))))) in
  skipn (length before - 250) before.

(** Bracket consumption: the replacement end for a match that ends at
    [to], given the two units that follow it in the document. *)
Definition consumedTo (d : jsstring) (to : nat) : nat :=
  match nth_error d to, nth_error d (to + 1) with
  | Some a, Some b => if N.eqb a (ch "]") && N.eqb b (ch "]") then to + 2 else to
  | _, _ => to
  end.

(** One atomic transaction: [stored] stands where the units from [from]
    to [to] stood, the selection is the one cursor at offset [cursor],
    store and clock are as before. *)
Definition replacedBy {Store} (w w' : World Store) (from to : nat)
  (stored : jsstring) (cursor : nat) : Prop :=
  doc (view w') = firstn from (doc (view w)) ++ stored ++ skipn to (doc (view w)) /\
  selection (view w')
  = {| ranges := [{| anchor := cursor; head := cursor |}]; mainIndex := 0 |} /\
  store w' = store w /\ clock w' = clock w.


(** [s] holds no unit [c]. *)
Definition lacks (c : cu) (s : jsstring) : bool :=
  forallb (fun x => negb (N.eqb x c)) s.

(** The world an effect leaves, whether it returned or threw. *)
Definition worldAfter {Store A} (o : Outcome Store A) : World Store :=
  match o with
  | Returned _ w => w
  | Thrown w => w
  end.

(** The transaction that replaces [from .. to], the closing brackets after
    [to] included, by [text], and puts the cursor after it. *)
Definition linkTransaction (d : jsstring) (text : jsstring) (from to : nat)
  : TransactionSpec :=
  {| changes := {| ch_from := from; ch_to := consumedTo d to; insert := text |};
     sel_anchor := from + length text |}.

(** The world once the store has taken the note of the create option: its
    id is the clock reading in decimal, its body a heading of the query
    and the inbox tag. *)
Definition afterCreate {Store} (upsertNoteAtom : Draft.note -> Store -> Store)
  (query : jsstring) (w : World Store) : World Store :=
  {| view := view w;
     store := upsertNoteAtom
                {| Draft.id := ofZ (clock w);
                   Draft.rawBody := lit "# " ++ query ++ [LF; LF] ++ lit "#inbox" |}
                (store w);
     clock := clock w |}.

(** A label-only option. *)
Definition labelOnly {Store} (name : jsstring) : Completion Store :=
  {| label := name; detail := None; info := None; apply := None |}.

(** The units a tag may continue with: letters, digits, hyphen, underscore
    and slash. *)
Definition tagChar (c : cu) : bool :=
  isLetter c || isDigit c || N.eqb c (ch "-") || N.eqb c (ch "_") || N.eqb c (ch "/").

(** The units the expression of the note source lets a query hold: all but
    the closing bracket, the bar and the caret. *)
Definition queryChar (c : cu) : bool :=
  negb (N.eqb c (ch "]")) && negb (N.eqb c (ch "|")) && negb (N.eqb c (ch "^")).

(** The last [k] decimal digits of [n]: a number below [10^k] in exactly
    [k] digits. *)
Fixpoint fixedWidth (k : nat) (n : N) : jsstring :=
  match k with
  | O => []
  | S k' => fixedWidth k' (N.div n 10) ++ [N.add 48 (N.modulo n 10)]
  end.

(** [YYYY-MM-DD] for a year, a month counted from 1 and a day, none of
    them negative. *)
Definition isoDate (y m d : Z) : jsstring :=
  fixedWidth 4 (Z.to_N y) ++ lit "-" ++ fixedWidth 2 (Z.to_N m) ++ lit "-"
  ++ fixedWidth 2 (Z.to_N d).

(** The absolute-URL prefixes. *)
Definition hasUrlPrefix (s : jsstring) : Prop :=
  (exists rest, s = lit "http://" ++ rest) \/ (exists rest, s = lit "https://" ++ rest).

(** How often [c] occurs in [s]. *)
Definition count (c : cu) (s : jsstring) : nat := count_occ N.eq_dec s c.

(** A reference: a body between double brackets. *)
Definition reference (body : jsstring) : jsstring := lit "[[" ++ body ++ lit "]]".

(** The number of closing brackets [s] starts with. *)
Fixpoint leadingClosers (s : jsstring) : nat :=
  match s with
  | [] => 0
  | c :: s' => if N.eqb c (ch "]") then S (leadingClosers s') else 0
  end.

End Spec.

Import Spec.

(** ** Sample collaborators and contexts *)

Module Sample.

(** A store that keeps the upserted notes, newest first. *)
Definition Store : Type := list Draft.note.
Definition upsert (n : Draft.note) (st : Store) : Store := n :: st.

(** A parser that reads every text as the fifth of January 2024. *)
Definition parse (_ : jsstring) : option JsDate :=
  Some {| getFullYear := 2024; getMonth := 0; getDate := 5 |}.


Definition format (s : jsstring) : jsstring := s.
Definition content (s : jsstring) : jsstring := s.

(** A search that finds one titled note whatever the query. *)
Definition search (_ : jsstring) : list (jsstring * option Note) :=
  [(lit "1700000000000", Some {| rawBody := lit "Groceries"; title := Some (lit "Shop") |})].

Definition tags (_ : unit) : list (jsstring * list jsstring) :=
  [(lit "project", []); (lit "project/lumen", [])].

(** The editor holding [s] with the cursor at its end. *)
Definition editor (s : jsstring) : EditorState :=
  {| doc := s; selection := cursorAt (length s) |}.

Definition context (s : jsstring) : CompletionContext :=
  {| state := editor s; pos := length s |}.

Definition world (s : jsstring) : World Store :=
  {| view := editor s; store := []; clock := 1700000000000 |}.

End Sample.

(** ** The tag breadcrumb *)

Module Tags.

(** [s.split(sep)] for a separator of one unit: the pieces between the
    separators, empty ones kept, at least one piece. *)
Fixpoint split (sep : cu) (s : jsstring) : list jsstring :=
  match s with
  | [] => [[]]
  | c :: s' =>
      if N.eqb c sep then [] :: split sep s'
      else match split sep s' with
           | p :: ps => (c :: p) :: ps
           | [] => [[c]]
           end
  end.

(** [parts.join(sep)] *)
Fixpoint join (sep : jsstring) (parts : list jsstring) : jsstring :=
  match parts with
  | [] => []
  | p :: ps =>
      match ps with
      | [] => p
      | _ :: _ => p ++ sep ++ join sep ps
      end
  end.

(** [parts.map((part, i) => f(part, i))] *)
Definition mapi {A} (f : jsstring -> nat -> A) (parts : list jsstring) : list A :=
  map (fun pi => f (fst pi) (snd pi)) (combine parts (seq 0 (length parts))).

(** The elements [TagLink] renders. *)
#[warnings="-register-all"]
Inductive node :=
| Text (s : jsstring)
| Span (className : option jsstring) (children : list node)
| Link (className to target : jsstring) (children : list node)
| Fragment (key : nat) (children : list node).

(** The text a node shows. *)
Fixpoint textContent (n : node) : jsstring :=
  match n with
  | Text s => s
  | Span _ cs => concat (map textContent cs)
  | Link _ _ _ cs => concat (map textContent cs)
  | Fragment _ cs => concat (map textContent cs)
  end.

(** The links of a node, in document order: target path and shown text. *)
Fixpoint links (n : node) : list (jsstring * jsstring) :=
  match n with
  | Text _ => []
  | Span _ cs => concat (map links cs)
  | Link _ to _ cs => [(to, concat (map textContent cs))]
  | Fragment _ cs => concat (map links cs)
  end.

Section TagLink.

(** [cx] of [../utils/cx], which joins class names. *)
Variable cx : jsstring -> option jsstring -> jsstring.

Definition TagLink (name : jsstring) (className : option jsstring) : node :=
  Span (Some (cx (lit "text-text-secondary") className))
    (Text (lit "#")
     :: mapi (fun part i =>
                Fragment i
                  ((if 0 <? i then [Span None [Text (lit "/")]] else [])
                   ++ [Link (lit "link")
                            (lit "/tags/"
                             ++ join (lit "/") (firstn (i + 1) (split (ch "/") name)))
                            (lit "_blank")
                            [Text part]]))
          (split (ch "/") name)).

End TagLink.

End Tags.

(** ** Further vocabulary *)

Module Spec2.

(** The number a string of decimal digits denotes. *)
Definition readDecimal (s : jsstring) : N :=
  fold_left (fun acc c => (10 * acc + (c - 48))%N) s 0%N.

(** The integer a decimal numeral with an optional minus sign denotes. *)
Definition readInteger (s : jsstring) : Z :=
  match s with
  | c :: r => if N.eqb c (ch "-") then (- Z.of_N (readDecimal r))%Z
              else Z.of_N (readDecimal s)
  | [] => 0%Z
  end.

(** The main range of the selection exists and lies within the document,
    as CodeMirror keeps it. *)
Definition wellFormed (st : EditorState) : Prop :=
  exists r, nth_error (ranges (selection st)) (mainIndex (selection st)) = Some r /\
            rangeTo r <= length (doc st).

(** The context CodeMirror hands the sources for a state: the cursor is
    the head of the main range. *)
Definition contextOf (st : EditorState) : CompletionContext :=
  {| state := st;
     pos := match nth_error (ranges (selection st)) (mainIndex (selection st)) with
            | Some r => head r
            | None => 0
            end |}.

(** A unit of a date string: a digit or the hyphen. *)
Definition dateUnit (c : cu) : bool := isDigit c || N.eqb c (ch "-").

End Spec2.

Import Spec2.

(** ** The matcher decides the denoted language *)

Section Matcher.

Lemma lang_void_inv s : lang Void s -> False.
Proof. intro H; inversion H. Qed.

Lemma lang_eps_inv s : lang Eps s -> s = [].
Proof. intro H; inversion H; reflexivity. Qed.

Lemma lang_set_inv items s :
  lang (Set_ items) s -> exists c, s = [c] /\ accepts false items c = true.
Proof. intro H; inversion H; subst; eauto. Qed.

Lemma lang_notset_inv items s :
  lang (NotSet items) s -> exists c, s = [c] /\ accepts true items c = true.
Proof. intro H; inversion H; subst; eauto. Qed.

Lemma lang_cat_inv r1 r2 s :
  lang (Cat r1 r2) s -> exists s1 s2, s = s1 ++ s2 /\ lang r1 s1 /\ lang r2 s2.
Proof. intro H; inversion H; subst; eauto. Qed.

Lemma lang_alt_inv r1 r2 s : lang (Alt r1 r2) s -> lang r1 s \/ lang r2 s.
Proof. intro H; inversion H; subst; auto. Qed.

Lemma lang_cat_cons c r1 r2 s1 s2 :
  lang r1 (c :: s1) -> lang r2 s2 -> lang (Cat r1 r2) (c :: s1 ++ s2).
Proof. intros H1 H2. apply (LCat H1 H2). Qed.

Lemma nullable_lang r : nullable r = true <-> lang r [].
Proof.
  induction r; simpl; split; intro H; try discriminate.
  - destruct (lang_void_inv H).
  - constructor.
  - reflexivity.
  - apply lang_set_inv in H as (c & Hc & _). discriminate.
  - apply lang_notset_inv in H as (c & Hc & _). discriminate.
  - apply andb_true_iff in H as [H1 H2].
    apply (@LCat r1 r2 [] []); tauto.
  - apply lang_cat_inv in H as (s1 & s2 & Heq & H1 & H2).
    symmetry in Heq. apply app_eq_nil in Heq as [-> ->].
    apply andb_true_iff; tauto.
  - apply orb_true_iff in H as [H|H]; [apply LAltL | apply LAltR]; tauto.
  - apply orb_true_iff. apply lang_alt_inv in H. tauto.
  - constructor.
  - reflexivity.
Qed.

Lemma star_cons_inv r c s :
  lang (Star r) (c :: s) ->
  exists s1 s2, s = s1 ++ s2 /\ lang r (c :: s1) /\ lang (Star r) s2.
Proof.
  intro H. remember (Star r) as e eqn:He. remember (c :: s) as t eqn:Ht.
  revert c s Ht.
  induction H; intros c0 s0 Ht; try discriminate.
  injection He as ->.
  destruct s1 as [|x s1]; simpl in Ht.
  - apply IHlang2; auto.
  - injection Ht as -> <-. exists s1, s2. auto.
Qed.

Lemma deriv_lang c r : forall s, lang (deriv c r) s <-> lang r (c :: s).
Proof.
  induction r; intro s; cbn [deriv].
  - split; intro H; destruct (lang_void_inv H).
  - split; intro H; [destruct (lang_void_inv H) | apply lang_eps_inv in H; discriminate].
  - destruct (accepts false items c) eqn:E; split; intro H.
    + apply lang_eps_inv in H as ->. now constructor.
    + apply lang_set_inv in H as (d & Hd & _). injection Hd as <- ->. constructor.
    + destruct (lang_void_inv H).
    + apply lang_set_inv in H as (d & Hd & Ha). injection Hd as <- ->. congruence.
  - destruct (accepts true items c) eqn:E; split; intro H.
    + apply lang_eps_inv in H as ->. now constructor.
    + apply lang_notset_inv in H as (d & Hd & _). injection Hd as <- ->. constructor.
    + destruct (lang_void_inv H).
    + apply lang_notset_inv in H as (d & Hd & Ha). injection Hd as <- ->. congruence.
  - destruct (nullable r1) eqn:N; split; intro H.
    + apply lang_alt_inv in H as [H|H].
      * apply lang_cat_inv in H as (s1 & s2 & -> & H1 & H2).
        apply lang_cat_cons; [now apply IHr1 | assumption].
      * apply (@LCat r1 r2 [] (c :: s)); [now apply nullable_lang | now apply IHr2].
    + apply lang_cat_inv in H as (s1 & s2 & Heq & H1 & H2).
      destruct s1 as [|x s1]; simpl in Heq.
      * subst s2. apply LAltR. now apply IHr2.
      * injection Heq as <- ->. apply LAltL.
        constructor; [now apply IHr1 | assumption].
    + apply lang_cat_inv in H as (s1 & s2 & -> & H1 & H2).
      apply lang_cat_cons; [now apply IHr1 | assumption].
    + apply lang_cat_inv in H as (s1 & s2 & Heq & H1 & H2).
      destruct s1 as [|x s1]; simpl in Heq.
      * apply nullable_lang in H1. congruence.
      * injection Heq as <- ->.
        constructor; [now apply IHr1 | assumption].
  - split; intro H; apply lang_alt_inv in H as [H|H].
    + apply LAltL. now apply IHr1.
    + apply LAltR. now apply IHr2.
    + apply LAltL. now apply IHr1.
    + apply LAltR. now apply IHr2.
  - split; intro H.
    + apply lang_cat_inv in H as (s1 & s2 & -> & H1 & H2).
      apply (@LStarApp r (c :: s1) s2); [now apply IHr | assumption].
    + apply star_cons_inv in H as (s1 & s2 & -> & H1 & H2).
      constructor; [now apply IHr | assumption].
Qed.

Lemma matches_lang r s : matches r s = true <-> lang r s.
Proof.
  revert r. induction s as [|c s IH]; intro r; simpl.
  - apply nullable_lang.
  - rewrite IH. apply deriv_lang.
Qed.

End Matcher.

(** ** Strings *)

Section Strings.

Lemma eqb_eq a : forall b, Js.eqb a b = true <-> a = b.
Proof.
  induction a as [|x a IH]; intros [|y b]; simpl; split; intro H;
    try reflexivity; try discriminate.
  - apply andb_true_iff in H as [Hx Ha].
    apply N.eqb_eq in Hx. apply IH in Ha. congruence.
  - injection H as -> ->. rewrite N.eqb_refl. simpl. now apply IH.
Qed.

Lemma truthy_true s : truthy s = true <-> s <> [].
Proof. destruct s; simpl; split; congruence. Qed.


Lemma slice_two (d : jsstring) (to : nat) (a b : cu) :
  slice d to (to + 2) = [a; b] <->
  nth_error d to = Some a /\ nth_error d (to + 1) = Some b.
Proof.
  unfold slice. replace (to + 2 - to) with 2 by lia.
  replace (nth_error d to) with (nth_error (skipn to d) 0)
    by (rewrite nth_error_skipn; f_equal; lia).
  replace (nth_error d (to + 1)) with (nth_error (skipn to d) 1)
    by (rewrite nth_error_skipn; f_equal; lia).
  destruct (skipn to d) as [|x [|y r]]; simpl; split; intro H;
    try discriminate; try (destruct H; discriminate).
  - injection H as -> ->. auto.
  - destruct H as [H1 H2]. congruence.
Qed.

Lemma consumedTo_slice (d : jsstring) (to : nat) :
  (if Js.eqb (slice d to (to + 2)) (lit "]]") then to + 2 else to) = consumedTo d to.
Proof.
  unfold consumedTo.
  destruct (Js.eqb (slice d to (to + 2)) (lit "]]")) eqn:E.
  - apply eqb_eq in E. apply slice_two in E as [-> ->]. reflexivity.
  - destruct (nth_error d to) as [a|] eqn:Ha; [|reflexivity].
    destruct (nth_error d (to + 1)) as [b|] eqn:Hb; [|reflexivity].
    destruct (N.eqb a (ch "]") && N.eqb b (ch "]")) eqn:Eab; [|reflexivity].
    apply andb_true_iff in Eab as [Ea Eb].
    apply N.eqb_eq in Ea, Eb. subst a b.
    assert (H : slice d to (to + 2) = lit "]]") by (apply slice_two; auto).
    rewrite H in E. discriminate.
Qed.

Lemma consumedTo_bounds (d : jsstring) (to : nat) :
  to <= length d -> to <= consumedTo d to <= length d.
Proof.
  intro Hto. unfold consumedTo.
  destruct (nth_error d to) as [a|] eqn:Ha; [|lia].
  destruct (nth_error d (to + 1)) as [b|] eqn:Hb; [|lia].
  destruct (N.eqb a (ch "]") && N.eqb b (ch "]")); [|lia].
  assert (to + 1 < length d) by (apply nth_error_Some; congruence). lia.
Qed.

End Strings.

(** ** What the expressions of the source match *)

Section Patterns.

Lemma lang_chr c s : lang (Chr c) s <-> s = [c].
Proof.
  unfold Chr. split; intro H.
  - apply lang_set_inv in H as (d & -> & Hd).
    unfold accepts in Hd. simpl in Hd. rewrite orb_false_r in Hd.
    apply N.eqb_eq in Hd. now subst.
  - subst. constructor. unfold accepts. simpl. now rewrite N.eqb_refl.
Qed.

Lemma lang_lit p s : lang (Lit p) s <-> s = p.
Proof.
  revert s. induction p as [|c p IH]; intro s; simpl; split; intro H.
  - now apply lang_eps_inv.
  - subst. constructor.
  - apply lang_cat_inv in H as (s1 & s2 & -> & H1 & H2).
    apply lang_chr in H1 as ->. apply IH in H2 as ->. reflexivity.
  - subst. apply (@LCat (Chr c) (Lit p) [c] p); [now apply lang_chr | now apply IH].
Qed.

Lemma lang_cat_lit p r s :
  lang (Cat (Lit p) r) s <-> exists t, s = p ++ t /\ lang r t.
Proof.
  split.
  - intro H. apply lang_cat_inv in H as (s1 & s2 & -> & H1 & H2).
    apply lang_lit in H1 as ->. eauto.
  - intros (t & -> & H). constructor; [now apply lang_lit | assumption].
Qed.

Lemma lang_star_set items s :
  lang (Star (Set_ items)) s <-> forallb (accepts false items) s = true.
Proof.
  split.
  - intro H. remember (Star (Set_ items)) as e eqn:He.
    induction H; try discriminate; [reflexivity|].
    injection He as ->.
    apply lang_set_inv in H as (c & -> & Hc). cbn [forallb app].
    rewrite Hc. now apply IHlang2.
  - induction s as [|c s IH]; cbn [forallb]; intro H; [constructor|].
    apply andb_true_iff in H as [Hc Hs].
    apply (@LStarApp (Set_ items) [c] s); [now constructor | now apply IH].
Qed.

Lemma lang_star_notset items s :
  lang (Star (NotSet items)) s <-> forallb (accepts true items) s = true.
Proof.
  split.
  - intro H. remember (Star (NotSet items)) as e eqn:He.
    induction H; try discriminate; [reflexivity|].
    injection He as ->.
    apply lang_notset_inv in H as (c & -> & Hc). cbn [forallb app].
    rewrite Hc. now apply IHlang2.
  - induction s as [|c s IH]; cbn [forallb]; intro H; [constructor|].
    apply andb_true_iff in H as [Hc Hs].
    apply (@LStarApp (NotSet items) [c] s); [now constructor | now apply IH].
Qed.

Lemma forallb_ext_eq (f g : cu -> bool) s :
  (forall c, f c = g c) -> forallb f s = forallb g s.
Proof. intro H. induction s; simpl; [reflexivity | now rewrite H, IHs]. Qed.

Lemma queryChar_class c :
  accepts true [IChar (ch "]"); IChar (ch "|"); IChar (ch "^"); IChar (ch "|")] c
  = queryChar c.
Proof.
  unfold accepts, queryChar. simpl.
  destruct (N.eqb c 93), (N.eqb c 124), (N.eqb c 94); reflexivity.
Qed.

Lemma tagChar_class c :
  accepts false [IWord; IChar (ch "-"); IChar (ch "_"); IDigit; IChar (ch "/")] c
  = tagChar c.
Proof.
  unfold accepts, tagChar. simpl. unfold isWord.
  destruct (isLetter c), (isDigit c), (N.eqb c 95), (N.eqb c 45),
    (N.eqb c 47); reflexivity.
Qed.

Lemma word_class c : accepts false [IWord] c = isWord c.
Proof. unfold accepts. simpl. now rewrite orb_false_r. Qed.

Lemma notePattern_matches s :
  matches notePattern s = true <->
  exists run, s = lit "[[" ++ run /\ forallb queryChar run = true.
Proof.
  rewrite matches_lang. unfold notePattern. rewrite lang_cat_lit.
  split; intros (run & -> & H); exists run; split; try reflexivity.
  - apply lang_star_notset in H.
    now rewrite (forallb_ext_eq _ _ run queryChar_class) in H.
  - apply lang_star_notset.
    now rewrite (forallb_ext_eq _ _ run queryChar_class).
Qed.

Lemma tagPattern_matches s :
  matches tagPattern s = true <->
  exists run, s = ch "#" :: run /\ forallb tagChar run = true.
Proof.
  rewrite matches_lang. unfold tagPattern.
  split.
  - intro H. apply lang_cat_inv in H as (s1 & s2 & -> & H1 & H2).
    apply lang_chr in H1 as ->. exists s2. split; [reflexivity|].
    apply lang_star_set in H2.
    now rewrite (forallb_ext_eq _ _ s2 tagChar_class) in H2.
  - intros (run & -> & H).
    apply (@LCat _ _ [ch "#"] run); [now apply lang_chr|].
    apply lang_star_set. now rewrite (forallb_ext_eq _ _ run tagChar_class).
Qed.

Lemma datePattern_matches s :
  matches datePattern s = true <->
  matches notePattern s = true \/ forallb isWord s = true.
Proof.
  rewrite !matches_lang. unfold datePattern. split.
  - intro H. apply lang_alt_inv in H as [H|H]; [left; exact H|right].
    apply lang_star_set in H. now rewrite (forallb_ext_eq _ _ s word_class) in H.
  - intros [H|H]; [apply LAltL; exact H | apply LAltR].
    apply lang_star_set. now rewrite (forallb_ext_eq _ _ s word_class).
Qed.

Lemma testPrefix_lang s : forall r,
  testPrefix r s = true <-> exists p t, s = p ++ t /\ lang r p.
Proof.
  induction s as [|c s IH]; intro r; simpl.
  - rewrite orb_false_r, nullable_lang. split.
    + intro H. exists [], []. auto.
    + intros (p & t & Heq & H). symmetry in Heq.
      apply app_eq_nil in Heq as [-> _]. exact H.
  - rewrite orb_true_iff, nullable_lang, IH. split.
    + intros [H | (p & t & -> & H)].
      * exists [], (c :: s). auto.
      * exists (c :: p), t. split; [reflexivity | now apply deriv_lang].
    + intros (p & t & Heq & H). destruct p as [|x p]; [now left|right].
      simpl in Heq. injection Heq as <- ->.
      exists p, t. split; [reflexivity | now apply deriv_lang].
Qed.

Lemma urlPattern_test s : testPrefix urlPattern s = true <-> hasUrlPrefix s.
Proof.
  rewrite testPrefix_lang. unfold urlPattern, hasUrlPrefix. split.
  - intros (p & t & -> & H).
    apply lang_cat_lit in H as (q & -> & H).
    apply lang_cat_inv in H as (o & e & -> & Ho & He).
    apply lang_lit in He as ->.
    apply lang_alt_inv in Ho as [Ho|Ho].
    + apply lang_chr in Ho as ->.
      right. exists t. reflexivity.
    + apply lang_eps_inv in Ho as ->. left. exists t. reflexivity.
  - intros [(rest & ->) | (rest & ->)].
    + exists (lit "http://"), rest. split; [reflexivity|].
      apply lang_cat_lit. exists (lit "://"). split; [reflexivity|].
      apply (@LCat _ _ [] (lit "://")); [apply LAltR; constructor | now apply lang_lit].
    + exists (lit "https://"), rest. split; [reflexivity|].
      apply lang_cat_lit. exists (lit "s://"). split; [reflexivity|].
      apply (@LCat _ _ [ch "s"] (lit "://")); [apply LAltL | now apply lang_lit].
      now apply lang_chr.
Qed.

End Patterns.

(** ** The search of [matchBefore] *)

Section SearchToEnd.

Lemma searchToEnd_Some r s : forall i,
  searchToEnd r s = Some i ->
  i <= length s /\ matches r (skipn i s) = true /\
  forall j, j < i -> matches r (skipn j s) = false.
Proof.
  induction s as [|c s IH]; intros i; cbn [searchToEnd].
  - destruct (matches r []) eqn:E; [|discriminate].
    intros [= <-]. repeat split; auto. intros j Hj. lia.
  - destruct (matches r (c :: s)) eqn:E.
    + intros [= <-]. repeat split; auto; [simpl; lia | intros j Hj; lia].
    + destruct (searchToEnd r s) as [k|] eqn:Ek; [|discriminate].
      intros [= <-]. destruct (IH k eq_refl) as (Hk & Hm & Hleast).
      repeat split; [simpl; lia | exact Hm |].
      intros [|j] Hj; [exact E | simpl; apply Hleast; lia].
Qed.

Lemma searchToEnd_None r s :
  searchToEnd r s = None -> forall j, matches r (skipn j s) = false.
Proof.
  induction s as [|c s IH]; cbn [searchToEnd].
  - destruct (matches r []) eqn:E; [discriminate|].
    intros _ j. now rewrite skipn_nil.
  - destruct (matches r (c :: s)) eqn:E; [discriminate|].
    destruct (searchToEnd r s) as [k|] eqn:Ek; [discriminate|].
    intros _ [|j]; [exact E | simpl; now apply IH].
Qed.

Lemma searchToEnd_least r s : forall i,
  i <= length s ->
  matches r (skipn i s) = true ->
  (forall j, j < i -> matches r (skipn j s) = false) ->
  searchToEnd r s = Some i.
Proof.
  induction s as [|c s IH]; intros i Hi Hm Hleast; cbn [searchToEnd].
  - simpl in Hi. assert (i = 0) by lia. subst. cbn [skipn] in Hm. now rewrite Hm.
  - destruct i as [|i].
    + cbn [skipn] in Hm. now rewrite Hm.
    + pose proof (Hleast 0 ltac:(lia)) as H0. cbn [skipn] in H0. rewrite H0.
      rewrite (IH i); [reflexivity | simpl in Hi; lia | exact Hm |].
      intros j Hj. apply (Hleast (S j)). lia.
Qed.

Lemma upToBreak_length d : length (upToBreak d) <= length d.
Proof.
  induction d as [|c d IH]; simpl; [lia|].
  destruct (N.eqb c LF); simpl; lia.
Qed.

Lemma lineBefore_length context : length (lineBefore context) <= pos context.
Proof.
  unfold lineBefore. rewrite length_skipn, length_rev.
  pose proof (upToBreak_length (rev (firstn (pos context) (doc (state context))))) as H.
  rewrite length_rev, length_firstn in H. lia.
Qed.

(** [matchBefore] searches [lineBefore] and reports offsets of the
    document. *)
Lemma matchBefore_lineBefore context expr :
  matchBefore context expr =
  match searchToEnd expr (lineBefore context) with
  | None => None
  | Some found =>
      Some {| m_from := pos context - length (lineBefore context) + found;
              m_to := pos context;
              text := skipn found (lineBefore context) |}
  end.
Proof.
  unfold matchBefore, lineAt. cbn [l_from l_text].
  pose proof (lineBefore_length context) as Hlen.
  unfold lineBefore in *.
  set (before := rev (upToBreak (rev (firstn (pos context) (doc (state context)))))) in *.
  set (after := upToBreak (skipn (pos context) (doc (state context)))).
  assert (Hb : length before <= pos context).
  { subst before. rewrite length_rev.
    pose proof (upToBreak_length (rev (firstn (pos context) (doc (state context))))) as H.
    rewrite length_rev, length_firstn in H. lia. }
  rewrite length_skipn in Hlen |- *.
  replace (Nat.max (pos context - length before) (pos context - 250)
           - (pos context - length before)) with (length before - 250) by lia.
  replace (pos context - (pos context - length before)) with (length before) by lia.
  assert (Hs : slice (before ++ after) (length before - 250) (length before)
               = skipn (length before - 250) before).
  { unfold slice. rewrite skipn_app.
    replace (length before - 250 - length before) with 0 by lia. simpl.
    rewrite firstn_app.
    rewrite length_skipn.
    replace (length before - (length before - 250)
             - (length before - (length before - 250))) with 0 by lia.
    simpl. rewrite app_nil_r. apply firstn_all2. rewrite length_skipn. lia. }
  rewrite Hs.
  destruct (searchToEnd expr (skipn (length before - 250) before)); [|reflexivity].
  do 2 f_equal. lia.
Qed.

Lemma matchBefore_span context expr word :
  matchBefore context expr = Some word ->
  m_from word + length (text word) = pos context /\ m_to word = pos context /\
  matches expr (text word) = true.
Proof.
  rewrite matchBefore_lineBefore.
  destruct (searchToEnd expr (lineBefore context)) as [found|] eqn:E; [|discriminate].
  intros [= <-]. cbn [m_from m_to text].
  apply searchToEnd_Some in E as (Hf & Hm & _).
  pose proof (lineBefore_length context). rewrite length_skipn.
  repeat split; [lia | exact Hm].
Qed.


End SearchToEnd.

(** ** The matched text is the document before the cursor *)

Section MatchedText.

Lemma upToBreak_prefix d : exists rest, d = upToBreak d ++ rest.
Proof.
  induction d as [|c d [rest IH]]; simpl; [now exists []|].
  destruct (N.eqb c LF); [now exists (c :: d)|].
  exists rest. simpl. now f_equal.
Qed.

Lemma lineBefore_suffix context :
  exists x, firstn (pos context) (doc (state context)) = x ++ lineBefore context.
Proof.
  unfold lineBefore.
  set (p := firstn (pos context) (doc (state context))).
  destruct (upToBreak_prefix (rev p)) as [rest Hrest].
  set (before := rev (upToBreak (rev p))).
  exists (rev rest ++ firstn (length before - 250) before).
  rewrite <- app_assoc, firstn_skipn. subst before.
  rewrite <- rev_app_distr, <- Hrest. now rewrite rev_involutive.
Qed.

Lemma matchBefore_text_doc context expr word :
  pos context <= length (doc (state context)) ->
  matchBefore context expr = Some word ->
  slice (doc (state context)) (m_from word) (pos context) = text word.
Proof.
  intros Hpos. rewrite matchBefore_lineBefore.
  destruct (searchToEnd expr (lineBefore context)) as [found|] eqn:E; [|discriminate].
  intros [= <-]. cbn [m_from text].
  apply searchToEnd_Some in E as (Hf & _ & _).
  pose proof (lineBefore_length context) as Hlen.
  destruct (lineBefore_suffix context) as [x Hx].
  assert (Hxl : length x = pos context - length (lineBefore context)).
  { apply (f_equal (@length cu)) in Hx.
    rewrite length_firstn, length_app in Hx. lia. }
  unfold slice.
  replace (pos context - (pos context - length (lineBefore context) + found))
    with (length (lineBefore context) - found) by lia.
  rewrite <- (firstn_skipn (pos context) (doc (state context))) at 1.
  rewrite Hx, <- Hxl.
  rewrite <- app_assoc, skipn_app.
  replace (length x + found - length x) with found by lia.
  rewrite skipn_all2 by lia. simpl.
  rewrite skipn_app, firstn_app.
  rewrite length_skipn, Nat.sub_diag. simpl.
  rewrite app_nil_r.
  apply firstn_all2. rewrite length_skipn. lia.
Qed.

End MatchedText.

(** ** Line breaks of an inserted string *)

Section LineBreaks.

Lemma lacks_app (c : cu) (a b : jsstring) :
  lacks c (a ++ b) = lacks c a && lacks c b.
Proof. apply forallb_app. Qed.

Lemma lacks_In (c : cu) (s : jsstring) : lacks c s = true <-> ~ In c s.
Proof.
  unfold lacks. rewrite forallb_forall. split.
  - intros H Hin. specialize (H _ Hin). rewrite N.eqb_refl in H. discriminate.
  - intros H x Hx. destruct (N.eqb_spec x c) as [-> | _]; [contradiction | reflexivity].
Qed.

(** A unit that some class of units holds, the class not holding [c]. *)
Lemma lacks_class (P : cu -> bool) (c : cu) (s : jsstring) :
  P c = false -> forallb P s = true -> lacks c s = true.
Proof.
  intros Hc Hs. apply lacks_In. intro Hin.
  rewrite forallb_forall in Hs. specialize (Hs _ Hin). congruence.
Qed.

Lemma lacks_firstn (c : cu) (n : nat) : forall s,
  lacks c s = true -> lacks c (firstn n s) = true.
Proof.
  induction n as [|n IH]; intros [|x s] H; try reflexivity.
  simpl in H |- *. apply andb_true_iff in H as [Hx Hs].
  rewrite Hx. now apply IH.
Qed.

Lemma lacks_skipn (c : cu) (n : nat) : forall s,
  lacks c s = true -> lacks c (skipn n s) = true.
Proof.
  induction n as [|n IH]; intros [|x s] H; try reflexivity; try exact H.
  simpl in H |- *. apply andb_true_iff in H as [_ Hs]. now apply IH.
Qed.

(** A string without carriage return enters the document as it is. *)
Lemma lineBreaks_lacks_CR (s : jsstring) : lacks CR s = true -> lineBreaks s = s.
Proof.
  induction s as [|c s IH]; [reflexivity|]. intro H.
  simpl in H. apply andb_true_iff in H as [Hc Hs].
  cbn [lineBreaks]. apply negb_true_iff in Hc. rewrite Hc. now rewrite IH.
Qed.

Lemma lineBreaks_cons (c : cu) (s : jsstring) :
  N.eqb c CR = false -> lineBreaks (c :: s) = c :: lineBreaks s.
Proof. intro H. change (lineBreaks (c :: s)) with
  (if N.eqb c CR then
     LF :: match s with
           | d :: s'' => if N.eqb d LF then lineBreaks s'' else lineBreaks s
           | [] => []
           end
   else c :: lineBreaks s). now rewrite H. Qed.

(** The defining equation at a non-empty string. *)
Lemma lineBreaks_eq (c : cu) (s : jsstring) :
  lineBreaks (c :: s)
  = if N.eqb c CR then
      LF :: match s with
            | d :: s'' => if N.eqb d LF then lineBreaks s'' else lineBreaks s
            | [] => []
            end
    else c :: lineBreaks s.
Proof. reflexivity. Qed.

(** A string without line feed keeps its length: its carriage returns
    are all lone ones. *)
Lemma lineBreaks_length_lacks_LF (s : jsstring) :
  lacks LF s = true -> length (lineBreaks s) = length s.
Proof.
  induction s as [|c s IH]; [reflexivity|]. intro H.
  simpl in H. apply andb_true_iff in H as [_ Hs]. specialize (IH Hs).
  rewrite lineBreaks_eq. destruct (N.eqb c CR); [|cbn [length]; now rewrite IH].
  destruct s as [|d s]; [reflexivity|].
  simpl in Hs. apply andb_true_iff in Hs as [Hd _]. apply negb_true_iff in Hd.
  rewrite Hd. cbn [length] in IH |- *. now rewrite IH.
Qed.

(** No string grows on its way into the document. *)
Lemma lineBreaks_length (s : jsstring) : length (lineBreaks s) <= length s.
Proof.
  assert (H : forall n s, length s <= n -> length (lineBreaks s) <= length s).
  { clear s. induction n as [|n IH]; intros [|c s] Hn; cbn [length] in Hn;
      try (cbn [lineBreaks length]; lia).
    rewrite lineBreaks_eq. destruct (N.eqb c CR).
    - destruct s as [|d s]; [cbn [length]; lia|].
      destruct (N.eqb d LF).
      + cbn [length] in Hn |- *. pose proof (IH s ltac:(lia)). lia.
      + pose proof (IH (d :: s) ltac:(lia)) as IH'. cbn [length] in IH' |- *. lia.
    - pose proof (IH s ltac:(lia)). cbn [length]. lia. }
  now apply (H (length s)).
Qed.

(** A unit that is no line break stays last. *)
Lemma lineBreaks_snoc (c : cu) (s : jsstring) :
  N.eqb c CR = false -> N.eqb c LF = false ->
  lineBreaks (s ++ [c]) = lineBreaks s ++ [c].
Proof.
  intros Hcr Hlf.
  assert (H : forall n s, length s <= n -> lineBreaks (s ++ [c]) = lineBreaks s ++ [c]).
  { clear s. induction n as [|n IH]; intros [|x s] Hn; cbn [length] in Hn;
      try (cbn [app]; rewrite lineBreaks_eq, Hcr; reflexivity); try lia.
    cbn [app]. rewrite !lineBreaks_eq. destruct (N.eqb x CR).
    - destruct s as [|d s].
      + cbn [app]. rewrite lineBreaks_eq, Hlf, Hcr. reflexivity.
      + cbn [app]. destruct (N.eqb d LF).
        * cbn [length] in Hn. now rewrite (IH s ltac:(lia)).
        * change (d :: s ++ [c]) with ((d :: s) ++ [c]).
          now rewrite (IH (d :: s) ltac:(lia)).
    - now rewrite (IH s ltac:(lia)). }
  now apply (H (length s)).
Qed.

(** The brackets of a reference stay around what its body becomes. *)
Lemma lineBreaks_reference (body : jsstring) :
  lineBreaks (reference body) = reference (lineBreaks body).
Proof.
  unfold reference. cbn [lit String.list_ascii_of_string map app].
  rewrite !lineBreaks_cons by reflexivity. do 2 f_equal.
  change (body ++ [N_of_ascii "]"; N_of_ascii "]"])
    with (body ++ [N_of_ascii "]"] ++ [N_of_ascii "]"]).
  rewrite app_assoc, lineBreaks_snoc by reflexivity.
  rewrite lineBreaks_snoc by reflexivity.
  now rewrite <- app_assoc.
Qed.

End LineBreaks.

(** ** The transaction of an apply callback *)

Section Transaction.

Variable Store : Type.

(** A transaction over a span of the document goes through exactly when
    the cursor it asks for lies within the new document. *)
Lemma update_replace (st : EditorState) (from to : nat) (text : jsstring) (a : nat) :
  from <= to -> to <= length (doc st) ->
  update st {| changes := {| ch_from := from; ch_to := to; insert := text |};
               sel_anchor := a |}
  = if a <=? from + length (lineBreaks text) + (length (doc st) - to)
    then Some {| doc := firstn from (doc st) ++ lineBreaks text ++ skipn to (doc st);
                 selection := cursorAt a |}
    else None.
Proof.
  intros Hft Hto. unfold update. cbn [changes ch_from ch_to insert sel_anchor].
  rewrite (proj2 (Nat.leb_le from to) Hft).
  rewrite (proj2 (Nat.leb_le to (length (doc st))) Hto). cbn [andb].
  rewrite !length_app, length_firstn, length_skipn.
  replace (Nat.min from (length (doc st))) with from by lia.
  now rewrite Nat.add_assoc.
Qed.

(** The closing-bracket lookahead followed by the dispatch, as the three
    apply callbacks have it, is the dispatch up to the consumed end. *)
Lemma lookahead_dispatch_eq (text : jsstring) (from to : nat) (w : World Store) :
  (next <- sliceDoc to (to + 2) ;;
   dispatch {| changes :=
                 {| ch_from := from;
                    ch_to := if Js.eqb next (lit "]]") then to + 2 else to;
                    insert := text |};
               sel_anchor := from + length text |}) w
  = dispatch {| changes :=
                  {| ch_from := from;
                     ch_to := consumedTo (doc (view w)) to;
                     insert := text |};
                sel_anchor := from + length text |} w.
Proof.
  unfold bind, sliceDoc. now rewrite consumedTo_slice.
Qed.

(** The link transaction on a span of the document: it goes through when
    what follows the consumed end makes up for the units the text loses on
    its way into the document, and it is refused otherwise. *)
Lemma dispatch_link (text : jsstring) (from to : nat) (w : World Store) :
  from <= to -> to <= length (doc (view w)) ->
  let rest := length (doc (view w)) - consumedTo (doc (view w)) to in
  (length text <= length (lineBreaks text) + rest ->
   exists w',
     dispatch (linkTransaction (doc (view w)) text from to) w = Returned tt w' /\
     replacedBy w w' from (consumedTo (doc (view w)) to) (lineBreaks text)
       (from + length text)) /\
  (length (lineBreaks text) + rest < length text ->
   dispatch (linkTransaction (doc (view w)) text from to) w = Thrown w).
Proof.
  intros Hft Hto rest.
  pose proof (consumedTo_bounds (doc (view w)) Hto) as [Hlo Hhi].
  unfold dispatch, linkTransaction.
  rewrite update_replace by lia. fold rest. split; intro H.
  - rewrite (proj2 (Nat.leb_le _ _)) by lia.
    eexists. split; [reflexivity|]. unfold replacedBy. cbn. auto.
  - rewrite (proj2 (Nat.leb_gt _ _)) by lia. reflexivity.
Qed.

(** What a dispatch that went through has done, and what a refused one
    leaves. *)
Lemma dispatch_inv (tr : TransactionSpec) (w w' : World Store) :
  dispatch tr w = Returned tt w' ->
  ch_from (changes tr) <= ch_to (changes tr) /\
  ch_to (changes tr) <= length (doc (view w)) /\
  sel_anchor tr <= length (doc (view w')) /\
  view w' = {| doc := firstn (ch_from (changes tr)) (doc (view w))
                      ++ lineBreaks (insert (changes tr))
                      ++ skipn (ch_to (changes tr)) (doc (view w));
               selection := cursorAt (sel_anchor tr) |} /\
  store w' = store w /\ clock w' = clock w.
Proof.
  unfold dispatch, update.
  destruct (ch_from (changes tr) <=? ch_to (changes tr)) eqn:E1; [|discriminate].
  destruct (ch_to (changes tr) <=? length (doc (view w))) eqn:E2; [|discriminate].
  cbn [andb].
  destruct (sel_anchor tr <=? _) eqn:E3; [|discriminate].
  intro H. injection H as <-. apply Nat.leb_le in E1, E2, E3.
  cbn [view doc store clock]. repeat split; assumption.
Qed.

Lemma dispatch_thrown (tr : TransactionSpec) (w w' : World Store) :
  dispatch tr w = Thrown w' -> w' = w.
Proof.
  unfold dispatch. destruct (update (view w) tr); [discriminate|].
  intro H. now injection H.
Qed.


(** A text without line feed loses no unit: the transaction goes through
    and the cursor follows what the document took. *)
Lemma dispatch_link_lacks_LF (text : jsstring) (from to : nat) (w : World Store) :
  lacks LF text = true ->
  from <= to -> to <= length (doc (view w)) ->
  exists w',
    dispatch (linkTransaction (doc (view w)) text from to) w = Returned tt w' /\
    replacedBy w w' from (consumedTo (doc (view w)) to) (lineBreaks text)
      (from + length text) /\
    length (lineBreaks text) = length text.
Proof.
  intros Hlf Hft Hto.
  pose proof (lineBreaks_length_lacks_LF _ Hlf) as Hlen.
  destruct (dispatch_link text w Hft Hto) as [Hok _].
  destruct Hok as (w' & Hrun & Hrep); [lia|]. eauto.
Qed.

End Transaction.

(** ** The options and their apply callbacks *)

Section Options.

Variable Store : Type.
Variable parseDate : jsstring -> option JsDate.
Variable formatDate : jsstring -> jsstring.
Variable formatDateDistance : jsstring -> jsstring.
Variable parseFrontmatter_content : jsstring -> jsstring.
Variable searchNotes : jsstring -> list (jsstring * option Note).
Variable upsertNoteAtom : Draft.note -> Store -> Store.
Variable getTags : unit -> list (jsstring * list jsstring).

Lemma dateCompletion_inv context r :
  dateCompletion (Store := Store) parseDate formatDate formatDateDistance context
  = Some r ->
  exists word date o f,
    matchBefore context datePattern = Some word /\
    replaceLeading (lit "[[") (text word) <> [] /\
    parseDate (replaceLeading (lit "[[") (text word)) = Some date /\
    r = {| from := m_from word; options := [o]; filter := Some false |} /\
    label o = formatDate (dateStringOf date) /\
    detail o = Some (formatDateDistance (dateStringOf date)) /\
    apply o = Some f /\
    forall from to (w : World Store),
      f from to w =
      dispatch (linkTransaction (doc (view w))
                  (lit "[[" ++ dateStringOf date ++ lit "]]") from to) w.
Proof.
  unfold dateCompletion.
  destruct (matchBefore context datePattern) as [word|]; [|discriminate].
  destruct (truthy (replaceLeading (lit "[[") (text word))) eqn:Eq; [|discriminate].
  cbn [negb].
  destruct (parseDate (replaceLeading (lit "[[") (text word))) as [date|] eqn:Ep;
    [|discriminate].
  intros [= <-]. do 4 eexists.
  split; [reflexivity|]. split; [now apply truthy_true|].
  split; [exact Ep|]. split; [reflexivity|].
  cbn [label detail apply]. repeat split.
  intros from to w. apply lookahead_dispatch_eq.
Qed.

Lemma noteOption_apply (id : jsstring) (note : option Note) :
  exists f,
    apply (noteOption (Store := Store) parseFrontmatter_content (id, note)) = Some f /\
    forall from to (w : World Store),
      f from to w =
      dispatch (linkTransaction (doc (view w))
                  (lit "[[" ++ id ++ titleSuffix note ++ lit "]]") from to) w.
Proof.
  eexists. split; [reflexivity|].
  intros from to w. apply lookahead_dispatch_eq.
Qed.

Lemma createNewNoteOption_apply (query : jsstring) :
  exists f,
    apply (createNewNoteOption upsertNoteAtom query) = Some f /\
    forall from to (w : World Store),
      f from to w =
      dispatch (linkTransaction (doc (view w))
                  (lit "[[" ++ ofZ (clock w) ++ lit "|" ++ query ++ lit "]]") from to)
               (afterCreate upsertNoteAtom query w).
Proof.
  eexists. split; [reflexivity|].
  intros from to w. unfold bind at 1, Date_now.
  unfold bind at 1, upsertNote.
  apply (lookahead_dispatch_eq _ _ _ (afterCreate upsertNoteAtom query w)).
Qed.

End Options.

(** ** Padded numbers *)

Section PaddedNumbers.

Lemma fixedWidth_zero k : fixedWidth k 0 = repeat (ch "0") k.
Proof.
  induction k as [|k IH]; [reflexivity|].
  cbn [fixedWidth]. change (N.div 0 10) with 0%N. rewrite IH.
  change [N.add 48 (N.modulo 0 10)] with (repeat (ch "0") 1).
  rewrite <- repeat_app. f_equal. lia.
Qed.

Lemma padStart_snoc k fill s c :
  padStart (S k) fill (s ++ [c]) = padStart k fill s ++ [c].
Proof.
  unfold padStart. rewrite length_app, <- app_assoc. simpl length.
  replace (S k - (length s + 1)) with (k - length s) by lia. reflexivity.
Qed.

(** The digits above the last one, padded, are the fixed-width digits. *)
Lemma padStart_higher k : forall fuel m,
  (m < 10 ^ N.of_nat k)%N -> (m < 2 ^ N.of_nat fuel)%N ->
  padStart k (ch "0") (if N.eqb m 0 then [] else digits fuel m) = fixedWidth k m.
Proof.
  induction k as [|k IH]; intros fuel m Hk Hf.
  - change (10 ^ N.of_nat 0)%N with 1%N in Hk.
    assert (m = 0%N) by lia. subst. reflexivity.
  - destruct (N.eqb_spec m 0) as [-> | Hm].
    + rewrite fixedWidth_zero. unfold padStart. simpl length.
      rewrite Nat.sub_0_r. apply app_nil_r.
    + destruct fuel as [|fuel].
      { change (2 ^ N.of_nat 0)%N with 1%N in Hf. lia. }
      cbn [digits fixedWidth]. rewrite padStart_snoc. f_equal.
      rewrite Nat2N.inj_succ, N.pow_succ_r' in Hk, Hf.
      assert (Hdiv : (m / 10 < 10 ^ N.of_nat k)%N)
        by (apply N.Div0.div_lt_upper_bound; lia).
      assert (Hdiv2 : (m / 10 < 2 ^ N.of_nat fuel)%N)
        by (apply N.Div0.div_lt_upper_bound; lia).
      rewrite <- (IH fuel (m / 10)%N Hdiv Hdiv2).
      destruct (N.ltb_spec m 10) as [Hlt | Hge].
      * rewrite N.div_small by exact Hlt. reflexivity.
      * destruct (N.eqb_spec (m / 10) 0) as [H0 | _]; [|reflexivity].
        apply N.div_small_iff in H0; lia.
Qed.

Lemma padStart_ofZ k z :
  (0 <= z < 10 ^ Z.of_nat (S k))%Z ->
  padStart (S k) (ch "0") (ofZ z) = fixedWidth (S k) (Z.to_N z).
Proof.
  intros [Hlo Hhi]. unfold ofZ.
  replace (Z.ltb z 0) with false by (symmetry; apply Z.ltb_ge; lia).
  cbn [app]. rewrite Zabs2N.abs_N_nonneg by exact Hlo.
  set (n := Z.to_N z).
  assert (Hn : (n < 10 ^ N.of_nat (S k))%N).
  { subst n. apply N2Z.inj_lt. rewrite Z2N.id by exact Hlo.
    rewrite N2Z.inj_pow, nat_N_Z. exact Hhi. }
  assert (Hbits : (n < 2 ^ N.of_nat (S (N.to_nat (N.log2 n))))%N).
  { rewrite Nat2N.inj_succ, N2Nat.id.
    destruct (N.eq_dec n 0) as [-> | Hnz]; [reflexivity|].
    apply N.log2_spec. lia. }
  cbn [digits fixedWidth]. rewrite padStart_snoc. f_equal.
  rewrite Nat2N.inj_succ, N.pow_succ_r' in Hn, Hbits.
  rewrite <- (@padStart_higher k (N.to_nat (N.log2 n)) (n / 10)%N).
  - destruct (N.ltb_spec n 10) as [Hlt | Hge].
    + rewrite N.div_small by exact Hlt. reflexivity.
    + destruct (N.eqb_spec (n / 10) 0) as [H0 | _]; [|reflexivity].
      apply N.div_small_iff in H0; lia.
  - apply N.Div0.div_lt_upper_bound; lia.
  - apply N.Div0.div_lt_upper_bound; lia.
Qed.

Lemma padStart_year z :
  (0 <= z <= 9999)%Z -> padStart 4 (ch "0") (ofZ z) = fixedWidth 4 (Z.to_N z).
Proof.
  intro Hz. apply padStart_ofZ. change (10 ^ Z.of_nat 4)%Z with 10000%Z. lia.
Qed.

Lemma padStart_two z :
  (0 <= z <= 99)%Z -> padStart 2 (ch "0") (ofZ z) = fixedWidth 2 (Z.to_N z).
Proof.
  intro Hz. apply padStart_ofZ. change (10 ^ Z.of_nat 2)%Z with 100%Z. lia.
Qed.

Lemma dateStringOf_iso date :
  (0 <= getFullYear date <= 9999)%Z ->
  (0 <= getMonth date <= 11)%Z ->
  (1 <= getDate date <= 31)%Z ->
  dateStringOf date = isoDate (getFullYear date) (getMonth date + 1) (getDate date).
Proof.
  intros Hy Hm Hd. unfold dateStringOf, isoDate.
  rewrite padStart_year by exact Hy.
  rewrite !padStart_two by lia. reflexivity.
Qed.

End PaddedNumbers.

(** ** The note and tag sources *)

Section NoteAndTagSources.

Variable Store : Type.
Variable parseFrontmatter_content : jsstring -> jsstring.
Variable searchNotes : jsstring -> list (jsstring * option Note).
Variable upsertNoteAtom : Draft.note -> Store -> Store.
Variable getTags : unit -> list (jsstring * list jsstring).

Lemma noteCompletion_inv context r :
  noteCompletion parseFrontmatter_content searchNotes upsertNoteAtom context = Some r ->
  exists word,
    matchBefore context notePattern = Some word /\
    from r = m_from word /\
    filter r = Some false /\
    options r =
      map (noteOption parseFrontmatter_content) (firstn 5 (searchNotes (skipn 2 (text word))))
      ++ (if truthy (skipn 2 (text word))
          then [createNewNoteOption upsertNoteAtom (skipn 2 (text word))] else []).
Proof.
  unfold noteCompletion.
  destruct (matchBefore context notePattern) as [word|]; [|discriminate].
  intro H. exists word.
  pose proof (f_equal (option_map (@from Store)) H) as Hfrom.
  pose proof (f_equal (option_map (@filter Store)) H) as Hfilter.
  pose proof (f_equal (option_map (@options Store)) H) as Hoptions.
  cbn [option_map from filter options] in Hfrom, Hfilter, Hoptions.
  split; [reflexivity|]. split; [congruence|]. split; [congruence|].
  assert (Ho : forall a b : list (Completion Store), Some a = Some b -> b = a)
    by (intros a b E; congruence).
  apply Ho in Hoptions. rewrite Hoptions.
  destruct (truthy (skipn 2 (text word))); [reflexivity|].
  now rewrite app_nil_r.
Qed.


Lemma tagCompletion_inv context r :
  tagCompletion (Store := Store) getTags context = Some r ->
  exists word,
    matchBefore context tagPattern = Some word /\
    from r = m_from word + 1 /\
    filter r = None /\
    options r = map labelOnly (Object_keys (getTags tt)).
Proof.
  unfold tagCompletion.
  destruct (matchBefore context tagPattern) as [word|]; [|discriminate].
  intro H. exists word.
  pose proof (f_equal (option_map (@from Store)) H) as Hfrom.
  pose proof (f_equal (option_map (@filter Store)) H) as Hfilter.
  pose proof (f_equal (option_map (@options Store)) H) as Hoptions.
  cbn [option_map from filter options] in Hfrom, Hfilter, Hoptions.
  split; [reflexivity|]. split; [congruence|]. split; [congruence|].
  assert (Ho : forall a b : list (Completion Store), Some a = Some b -> b = a)
    by (intros a b E; congruence).
  apply Ho in Hoptions. rewrite Hoptions. reflexivity.
Qed.


End NoteAndTagSources.

(** ** The matched token *)

Section MatchedToken.

Variable Store : Type.
Variable parseDate : jsstring -> option JsDate.
Variable formatDate : jsstring -> jsstring.
Variable formatDateDistance : jsstring -> jsstring.
Variable parseFrontmatter_content : jsstring -> jsstring.
Variable searchNotes : jsstring -> list (jsstring * option Note).
Variable upsertNoteAtom : Draft.note -> Store -> Store.
Variable getTags : unit -> list (jsstring * list jsstring).

(** The token of the note source, and of the bracketed branch of the date
    source: two opening brackets and a run that holds no closing bracket,
    no bar and no caret, up to the cursor. *)
Lemma note_token context word :
  matchBefore context notePattern = Some word ->
  exists run, text word = lit "[[" ++ run /\ forallb queryChar run = true /\
              m_from word + 2 + length run = pos context.
Proof.
  intro Hw. apply matchBefore_span in Hw as (Hspan & _ & Hm).
  apply notePattern_matches in Hm as (run & Ht & Hrun).
  exists run. repeat split; [exact Ht | exact Hrun |].
  rewrite Ht, length_app in Hspan. simpl in Hspan. lia.
Qed.

(** C3.  On the line [[[a^b] with the cursor at its end the note source
    reports no match, the expression does not match the line, and the
    date source falls back to the bare word [b]: the caret, which is
    neither a closing bracket nor a bar, ends the run. *)
Theorem note_token_stops_at_caret :
  noteCompletion (Store := Store) parseFrontmatter_content searchNotes upsertNoteAtom
    (Sample.context (lit "[[a^b")) = None /\
  matches notePattern (lit "[[a^b") = false /\
  matchBefore (Sample.context (lit "[[a^b")) datePattern
  = Some {| m_from := 4; m_to := 5; text := lit "b" |} /\
  matchBefore (Sample.context (lit "[[a b")) notePattern
  = Some {| m_from := 0; m_to := 5; text := lit "[[a b" |}.
Proof.
  repeat split.
Qed.

(** C9.  The anchor of every result of the date, note and tag sources is
    at or before the cursor of the context. *)
Theorem anchor_not_after_cursor (context : CompletionContext)
  (r : CompletionResult Store) :
  dateCompletion parseDate formatDate formatDateDistance context = Some r \/
  noteCompletion parseFrontmatter_content searchNotes upsertNoteAtom context = Some r \/
  tagCompletion getTags context = Some r ->
  from r <= pos context.
Proof.
  intros [H | [H | H]].
  - apply dateCompletion_inv in H as (word & date & o & f & Hw & _ & _ & -> & _).
    apply matchBefore_span in Hw as (Hspan & _). cbn [from]. lia.
  - apply noteCompletion_inv in H as (word & Hw & -> & _).
    apply matchBefore_span in Hw as (Hspan & _). lia.
  - apply tagCompletion_inv in H as (word & Hw & -> & _).
    apply matchBefore_span in Hw as (Hspan & _ & Hm).
    apply tagPattern_matches in Hm as (run & Ht & _).
    rewrite Ht in Hspan. simpl in Hspan. lia.
Qed.

End MatchedToken.

(** The tag source on the document [#proj]: anchored at 1, cursor at 5. *)
Lemma anchor_not_after_cursor_witness :
  exists r : CompletionResult Sample.Store,
    tagCompletion Sample.tags (Sample.context (lit "#proj")) = Some r /\
    from r <= 5.
Proof.
  eexists. split; [reflexivity|].
  apply (@anchor_not_after_cursor Sample.Store Sample.parse Sample.format Sample.format
           Sample.content Sample.search Sample.upsert Sample.tags
           (Sample.context (lit "#proj"))).
  right. right. reflexivity.
Defined.

(** ** The tag source *)

Section TagSource.

Variable Store : Type.
Variable getTags : unit -> list (jsstring * list jsstring).

Lemma slice_cons (d : jsstring) (a b : nat) (c : cu) (r : jsstring) :
  slice d a b = c :: r -> nth_error d a = Some c /\ slice d (a + 1) b = r.
Proof.
  unfold slice. intro H.
  destruct (b - a) as [|k] eqn:Ek; [discriminate|].
  destruct (skipn a d) as [|x t] eqn:Es; [discriminate|].
  simpl in H. injection H as -> <-. split.
  - replace a with (a + 0) by lia. rewrite <- nth_error_skipn, Es. reflexivity.
  - replace (a + 1) with (1 + a) by lia. rewrite <- skipn_skipn, Es. simpl.
    f_equal. lia.
Qed.

Lemma tag_search pre run :
  forallb tagChar run = true ->
  searchToEnd tagPattern (pre ++ ch "#" :: run) = Some (length pre).
Proof.
  intro Hrun. apply searchToEnd_least.
  - rewrite length_app. lia.
  - rewrite skipn_app, skipn_all, Nat.sub_diag. cbn [skipn app].
    apply tagPattern_matches. eauto.
  - intros j Hj.
    destruct (matches tagPattern (skipn j (pre ++ ch "#" :: run))) eqn:E; [|reflexivity].
    exfalso. apply tagPattern_matches in E as (run' & Heq & Hrun').
    rewrite skipn_app in Heq. replace (j - length pre) with 0 in Heq by lia.
    cbn [skipn] in Heq.
    destruct (skipn j pre) as [|c rest] eqn:Es.
    { apply (f_equal (@length cu)) in Es. rewrite length_skipn in Es.
      simpl in Es. lia. }
    simpl in Heq. injection Heq as _ Heq. subst run'.
    rewrite forallb_app in Hrun'. apply andb_true_iff in Hrun' as [_ Hrun'].
    simpl in Hrun'. discriminate.
Qed.

(** C4, as amended.  When the part of the cursor's line before the
    cursor that [matchBefore] examines, at most its last 250 units, ends
    with a hash followed by a run of ASCII letters, digits, hyphens,
    underscores and slashes, the tag source returns a result whose anchor
    is the offset right after the hash: the span from the anchor to the
    cursor is the run, the unit before the anchor is the hash.  Its
    options are one label-only option for each key of the tag index, in
    the order of the index and with no filtering by the source. *)
Theorem tag_provider_anchor (context : CompletionContext) (pre run : jsstring) :
  lineBefore context = pre ++ ch "#" :: run ->
  forallb tagChar run = true ->
  exists r : CompletionResult Store,
    tagCompletion getTags context = Some r /\
    from r + length run = pos context /\
    1 <= from r /\
    (pos context <= length (doc (state context)) ->
     nth_error (doc (state context)) (from r - 1) = Some (ch "#") /\
     slice (doc (state context)) (from r) (pos context) = run) /\
    options r = map labelOnly (Object_keys (getTags tt)) /\
    length (options r) = length (getTags tt) /\
    (forall i name, nth_error (Object_keys (getTags tt)) i = Some name ->
       exists o, nth_error (options r) i = Some o /\ label o = name /\
                 detail o = None /\ info o = None /\ apply o = None).
Proof.
  intros Hline Hrun.
  assert (Hw : matchBefore context tagPattern
               = Some {| m_from := pos context - length (lineBefore context) + length pre;
                         m_to := pos context;
                         text := ch "#" :: run |}).
  { rewrite matchBefore_lineBefore, Hline, (tag_search pre run Hrun).
    rewrite skipn_app, skipn_all, Nat.sub_diag. reflexivity. }
  pose proof (lineBefore_length context) as Hlen.
  rewrite Hline, length_app in Hlen. simpl in Hlen.
  unfold tagCompletion. rewrite Hw. eexists. split; [reflexivity|].
  cbn [from options m_from].
  rewrite Hline, length_app. simpl length.
  split; [lia|]. split; [lia|]. split; [|split; [reflexivity|split]].
  - intro Hpos.
    pose proof (matchBefore_text_doc context tagPattern Hpos Hw) as Hdoc.
    cbn [m_from text] in Hdoc. rewrite Hline, length_app in Hdoc. simpl length in Hdoc.
    apply slice_cons in Hdoc as [Hhash Hslice].
    split.
    + rewrite <- Hhash. f_equal. lia.
    + exact Hslice.
  - unfold Object_keys. now rewrite !length_map.
  - intros i name Hi. exists (labelOnly name).
    split; [|repeat split].
    rewrite nth_error_map, Hi. reflexivity.
Qed.

End TagSource.

(** The tag source on the document [#proj]: the anchor is 1, after the
    hash, and the options are the two tags of the sample index. *)
Lemma tag_provider_anchor_witness :
  exists r : CompletionResult Sample.Store,
    tagCompletion Sample.tags (Sample.context (lit "#proj")) = Some r /\
    from r = 1 /\
    map (@label Sample.Store) (options r) = [lit "project"; lit "project/lumen"].
Proof.
  destruct (@tag_provider_anchor Sample.Store Sample.tags
              (Sample.context (lit "#proj")) [] (lit "proj"))
    as (r & Hr & Hfrom & _ & _ & Hopts & _).
  - reflexivity.
  - reflexivity.
  - exists r. split; [exact Hr|]. split.
    + simpl in Hfrom. lia.
    + rewrite Hopts. reflexivity.
Defined.

(** ** The empty query *)

Section EmptyQuery.

Variable Store : Type.
Variable parseDate : jsstring -> option JsDate.
Variable formatDate : jsstring -> jsstring.
Variable formatDateDistance : jsstring -> jsstring.
Variable parseFrontmatter_content : jsstring -> jsstring.
Variable searchNotes : jsstring -> list (jsstring * option Note).
Variable upsertNoteAtom : Draft.note -> Store -> Store.

Lemma forallb_skipn (f : cu -> bool) (n : nat) : forall l,
  forallb f l = true -> forallb f (skipn n l) = true.
Proof.
  induction n as [|n IH]; intros [|c l] H; simpl; auto.
  simpl in H. apply andb_true_iff in H as [_ H]. now apply IH.
Qed.



End EmptyQuery.


(** ** The tag breadcrumb *)

Section TagBreadcrumb.

Variable cx : jsstring -> option jsstring -> jsstring.

Lemma split_cons (sep : cu) (s : jsstring) :
  exists p ps, Tags.split sep s = p :: ps.
Proof.
  destruct s as [|c s]; simpl; [eauto|].
  destruct (N.eqb c sep); [eauto|].
  destruct (Tags.split sep s); eauto.
Qed.

Lemma join_cons (sep p : jsstring) (ps : list jsstring) :
  Tags.join sep (p :: ps) = p ++ concat (map (fun q => sep ++ q) ps).
Proof.
  revert p. induction ps as [|q ps IH]; intro p; simpl.
  - now rewrite app_nil_r.
  - specialize (IH q). simpl in IH. rewrite IH. now rewrite <- app_assoc.
Qed.

Lemma join_split (sep : cu) (s : jsstring) :
  Tags.join [sep] (Tags.split sep s) = s.
Proof.
  induction s as [|c s IH]; [reflexivity|].
  cbn [Tags.split].
  destruct (split_cons sep s) as (p & ps & Hs). rewrite Hs in IH |- *.
  destruct (N.eqb_spec c sep) as [-> | Hc].
  - cbn [Tags.join app] in IH |- *. now rewrite IH.
  - destruct ps as [|q qs]; cbn [Tags.join app] in IH |- *; now rewrite <- IH.
Qed.

Lemma length_split (sep : cu) (s : jsstring) :
  length (Tags.split sep s) = S (count sep s).
Proof.
  unfold count. induction s as [|c s IH]; [reflexivity|].
  cbn [Tags.split count_occ].
  destruct (split_cons sep s) as (p & ps & Hs). rewrite Hs in IH |- *.
  destruct (N.eqb_spec c sep) as [-> | Hc].
  - destruct (N.eq_dec sep sep); [|contradiction]. simpl in *. lia.
  - destruct (N.eq_dec c sep); [contradiction|]. exact IH.
Qed.

Lemma split_no_sep (sep : cu) (s : jsstring) :
  Forall (fun p => ~ In sep p) (Tags.split sep s).
Proof.
  induction s as [|c s IH]; [repeat constructor; auto|].
  cbn [Tags.split].
  destruct (split_cons sep s) as (p & ps & Hs). rewrite Hs in IH |- *.
  inversion IH as [|? ? Hp Hps]; subst.
  destruct (N.eqb_spec c sep) as [-> | Hc].
  - constructor; [intros []|]. now constructor.
  - constructor; [|exact Hps]. intros [H | H]; [congruence | contradiction].
Qed.

Lemma join_snoc (sep p : jsstring) (ps : list jsstring) (q : jsstring) :
  Tags.join sep ((p :: ps) ++ [q]) = Tags.join sep (p :: ps) ++ sep ++ q.
Proof.
  cbn [app]. rewrite !join_cons, map_app, concat_app. simpl.
  now rewrite app_nil_r, <- !app_assoc.
Qed.

Lemma concat_map_singleton {A B} (h : A -> list B) (g : A -> B) (l : list A) :
  (forall x, h x = [g x]) -> concat (map h l) = map g l.
Proof. intro H. induction l; simpl; [reflexivity|]. now rewrite H, IHl. Qed.

(** The text of the fragments of [parts], numbered from [k]. *)
Lemma fragments_text (to : nat -> jsstring) (parts : list jsstring) : forall k,
  concat (map Tags.textContent
    (map (fun pi : jsstring * nat =>
            Tags.Fragment (snd pi)
              ((if 0 <? snd pi then [Tags.Span None [Tags.Text (lit "/")]] else [])
               ++ [Tags.Link (lit "link") (to (snd pi)) (lit "_blank")
                             [Tags.Text (fst pi)]]))
         (combine parts (seq k (length parts)))))
  = concat (map (fun p => (if 0 <? k then lit "/" else []) ++ p)
                (firstn 1 parts))
    ++ concat (map (fun p => lit "/" ++ p) (skipn 1 parts)).
Proof.
  induction parts as [|p ps IH]; intro k; [reflexivity|].
  cbn [length seq combine map concat firstn skipn fst snd].
  rewrite (IH (S k)). rewrite app_nil_r.
  assert (Hps : concat (map (fun q => (if 0 <? S k then lit "/" else []) ++ q)
                            (firstn 1 ps))
                ++ concat (map (fun q => lit "/" ++ q) (skipn 1 ps))
                = concat (map (fun q => lit "/" ++ q) ps)).
  { destruct ps as [|q qs]; [reflexivity|]. cbn. now rewrite app_nil_r. }
  rewrite Hps. f_equal.
  destruct (0 <? k); cbn; now rewrite !app_nil_r.
Qed.

(** X1.  The text [TagLink] shows is the hash followed by the tag name,
    unit for unit, whatever slashes the name holds. *)
Theorem TagLink_text (name : jsstring) (className : option jsstring) :
  Tags.textContent (Tags.TagLink cx name className) = ch "#" :: name.
Proof.
  unfold Tags.TagLink, Tags.mapi. cbn [Tags.textContent map concat].
  rewrite (fragments_text
             (fun i => lit "/tags/"
                       ++ Tags.join (lit "/") (firstn (i + 1) (Tags.split (ch "/") name)))
             (Tags.split (ch "/") name) 0).
  destruct (split_cons (ch "/") name) as (p & ps & Hs).
  pose proof (join_split (ch "/") name) as Hj. rewrite Hs in Hj |- *.
  rewrite join_cons in Hj. cbn. rewrite app_nil_r.
  change (ch "#" :: p ++ concat (map (fun q => lit "/" ++ q) ps) = ch "#" :: name).
  f_equal. exact Hj.
Qed.

Lemma TagLink_links_eq (name : jsstring) (className : option jsstring) :
  Tags.links (Tags.TagLink cx name className)
  = map (fun pi : jsstring * nat =>
           (lit "/tags/"
            ++ Tags.join (lit "/") (firstn (snd pi + 1) (Tags.split (ch "/") name)),
            fst pi))
        (combine (Tags.split (ch "/") name)
                 (seq 0 (length (Tags.split (ch "/") name)))).
Proof.
  unfold Tags.TagLink, Tags.mapi. cbn [Tags.links map concat app].
  rewrite map_map. apply concat_map_singleton.
  intros [part i]. cbn [fst snd Tags.links].
  rewrite map_app, concat_app.
  destruct (0 <? i); cbn; now rewrite !app_nil_r.
Qed.

Lemma nth_error_combine {A B} (a : list A) : forall (b : list B) i x y,
  nth_error a i = Some x -> nth_error b i = Some y ->
  nth_error (combine a b) i = Some (x, y).
Proof.
  induction a as [|a0 a IH]; intros [|b0 b] [|i] x y Ha Hb;
    try discriminate; simpl in *.
  - congruence.
  - now apply IH.
Qed.

Lemma map_fst_combine_seq {A} (a : list A) : forall k,
  map fst (combine a (seq k (length a))) = a.
Proof.
  induction a as [|a0 a IH]; intro k; simpl; [reflexivity|]. now rewrite IH.
Qed.

Lemma TagLink_links_nth (name : jsstring) (className : option jsstring) (i : nat) :
  nth_error (Tags.links (Tags.TagLink cx name className)) i
  = option_map
      (fun part =>
         (lit "/tags/"
          ++ Tags.join (lit "/") (firstn (i + 1) (Tags.split (ch "/") name)),
          part))
      (nth_error (Tags.split (ch "/") name) i).
Proof.
  rewrite TagLink_links_eq, nth_error_map.
  set (parts := Tags.split (ch "/") name).
  destruct (nth_error parts i) as [part|] eqn:Hp.
  - assert (Hc : nth_error (combine parts (seq 0 (length parts))) i = Some (part, i)).
    { assert (Hi : i < length parts) by (apply nth_error_Some; congruence).
      apply nth_error_combine; [exact Hp|].
      rewrite (nth_error_nth' _ 0) by (rewrite length_seq; exact Hi).
      now rewrite seq_nth. }
    rewrite Hc. reflexivity.
  - assert (Hc : nth_error (combine parts (seq 0 (length parts))) i = None).
    { apply nth_error_None. rewrite length_combine, length_seq.
      apply nth_error_None in Hp. lia. }
    rewrite Hc. reflexivity.
Qed.

Lemma TagLink_links_length (name : jsstring) (className : option jsstring) :
  length (Tags.links (Tags.TagLink cx name className))
  = length (Tags.split (ch "/") name).
Proof.
  rewrite TagLink_links_eq, length_map, length_combine, length_seq. lia.
Qed.

(** X2.  [TagLink] renders one link for each slash of the name and one
    more, so at least one; the texts of the links, in order, are the
    segments of the name between its slashes, none of which holds a slash,
    and joined by slashes they give the name back. *)
Theorem TagLink_segments (name : jsstring) (className : option jsstring) :
  let shown := map snd (Tags.links (Tags.TagLink cx name className)) in
  length (Tags.links (Tags.TagLink cx name className)) = S (count (ch "/") name) /\
  shown = Tags.split (ch "/") name /\
  Tags.join (lit "/") shown = name /\
  Forall (fun part => ~ In (ch "/") part) shown.
Proof.
  cbn zeta.
  assert (Hshown : map snd (Tags.links (Tags.TagLink cx name className))
                   = Tags.split (ch "/") name).
  { rewrite TagLink_links_eq, map_map. cbn [snd]. apply map_fst_combine_seq. }
  split.
  - rewrite TagLink_links_length. apply length_split.
  - rewrite Hshown. split; [reflexivity|]. split.
    + apply (join_split (ch "/") name).
    + apply split_no_sep.
Qed.

(** X3.  The targets of the links of [TagLink] climb down the hierarchy:
    the first is [/tags/] followed by the first segment, each further one
    is the target before it followed by a slash and its own segment, and
    the last one is [/tags/] followed by the whole name. *)
Theorem TagLink_targets (name : jsstring) (className : option jsstring) :
  let ls := Tags.links (Tags.TagLink cx name className) in
  (exists part, nth_error ls 0 = Some (lit "/tags/" ++ part, part)) /\
  (forall i t p t' p',
     nth_error ls i = Some (t, p) -> nth_error ls (S i) = Some (t', p') ->
     t' = t ++ lit "/" ++ p') /\
  (exists part, nth_error ls (length ls - 1) = Some (lit "/tags/" ++ name, part)).
Proof.
  cbn zeta.
  destruct (split_cons (ch "/") name) as (p0 & ps & Hs).
  split; [|split].
  - exists p0. rewrite TagLink_links_nth, Hs. reflexivity.
  - intros i t p t' p' Hi HSi.
    rewrite TagLink_links_nth in Hi, HSi.
    destruct (nth_error (Tags.split (ch "/") name) i) as [q|] eqn:Hq; [|discriminate].
    destruct (nth_error (Tags.split (ch "/") name) (S i)) as [q'|] eqn:Hq';
      [|discriminate].
    cbn [option_map] in Hi, HSi.
    assert (Ht : t = lit "/tags/"
                     ++ Tags.join (lit "/") (firstn (i + 1) (Tags.split (ch "/") name)))
      by congruence.
    assert (Ht' : t' = lit "/tags/"
                       ++ Tags.join (lit "/")
                            (firstn (S (i + 1)) (Tags.split (ch "/") name)))
      by (replace (S (i + 1)) with (S i + 1) by lia; congruence).
    assert (Hp' : p' = q') by congruence.
    rewrite Ht, Ht', Hp'. clear Hi HSi Ht Ht' Hp'.
    assert (Hlen : S i < length (Tags.split (ch "/") name))
      by (apply nth_error_Some; congruence).
    assert (Hf : firstn (S (i + 1)) (Tags.split (ch "/") name)
                 = firstn (i + 1) (Tags.split (ch "/") name) ++ [q']).
    { replace (i + 1) with (S i) by lia.
      clear Hq Hs. revert i Hq' Hlen.
      generalize (Tags.split (ch "/") name).
      induction l as [|x l IH]; intros i Hq' Hlen; [discriminate|].
      destruct i as [|i].
      - destruct l as [|y l]; [discriminate|]. simpl in Hq'. now injection Hq' as ->.
      - cbn [firstn app]. f_equal. apply IH; [exact Hq' | simpl in Hlen; lia]. }
    rewrite Hf.
    destruct (firstn (i + 1) (Tags.split (ch "/") name)) as [|x xs] eqn:Hx.
    { apply (f_equal (@length jsstring)) in Hx. rewrite length_firstn in Hx.
      cbn [length] in Hx. lia. }
    rewrite join_snoc. now rewrite <- !app_assoc.
  - rewrite TagLink_links_nth, TagLink_links_length.
    destruct (nth_error (Tags.split (ch "/") name)
                (length (Tags.split (ch "/") name) - 1)) as [q|] eqn:Hq.
    + exists q. cbn [option_map].
      rewrite firstn_all2 by lia.
      now rewrite (join_split (ch "/") name : Tags.join (lit "/") _ = name).
    + apply nth_error_None in Hq. rewrite Hs in Hq. simpl in Hq. lia.
Qed.

End TagBreadcrumb.

(** The links of the tag [a/b]: the second target extends the first. *)
Lemma TagLink_targets_witness :
  nth_error (Tags.links (Tags.TagLink (fun a _ => a) (lit "a/b") None)) 1
  = Some (lit "/tags/a/b", lit "b").
Proof.
  pose proof (@TagLink_targets (fun a _ => a) (lit "a/b") None) as (_ & Hstep & _).
  cbn zeta in Hstep.
  rewrite (Hstep 0 (lit "/tags/a") (lit "a") (lit "/tags/a/b") (lit "b") eq_refl eq_refl).
  reflexivity.
Defined.

(** ** Decimal numerals *)

Section Numerals.

Lemma readDecimal_snoc (s : jsstring) (c : cu) :
  readDecimal (s ++ [c]) = (10 * readDecimal s + (c - 48))%N.
Proof. unfold readDecimal. now rewrite fold_left_app. Qed.

Lemma digits_isDigit (fuel : nat) : forall n, forallb isDigit (digits fuel n) = true.
Proof.
  induction fuel as [|fuel IH]; intro n; [reflexivity|].
  cbn [digits]. rewrite forallb_app. apply andb_true_iff. split.
  - destruct (N.ltb n 10); [reflexivity | apply IH].
  - cbn [forallb]. rewrite andb_true_r. unfold isDigit, between.
    pose proof (N.mod_upper_bound n 10 ltac:(discriminate)) as Hm.
    generalize dependent (N.modulo n 10). intros m Hm.
    apply andb_true_iff. split; apply N.leb_le; lia.
Qed.

(** With fuel for its bits, the digits of a number read back as it. *)
Lemma readDecimal_digits (fuel : nat) : forall n,
  (n < 2 ^ N.of_nat fuel)%N -> readDecimal (digits fuel n) = n.
Proof.
  induction fuel as [|fuel IH]; intros n Hn.
  - change (2 ^ N.of_nat 0)%N with 1%N in Hn. assert (n = 0%N) by lia. now subst.
  - cbn [digits]. rewrite readDecimal_snoc.
    rewrite Nat2N.inj_succ, N.pow_succ_r' in Hn.
    rewrite (N.add_comm 48), N.add_sub.
    match goal with
    | |- (10 * readDecimal ?x + _)%N = _ =>
        assert (Hhigh : readDecimal x = (n / 10)%N)
    end.
    { destruct (N.ltb_spec n 10) as [Hlt | Hge].
      - rewrite N.div_small by exact Hlt. reflexivity.
      - apply IH. apply N.Div0.div_lt_upper_bound. lia. }
    rewrite Hhigh. symmetry. apply N.div_mod. discriminate.
Qed.

Lemma log2_fuel (n : N) : (n < 2 ^ N.of_nat (S (N.to_nat (N.log2 n))))%N.
Proof.
  rewrite Nat2N.inj_succ, N2Nat.id.
  destruct (N.eq_dec n 0) as [-> | Hnz]; [reflexivity|].
  apply N.log2_spec. lia.
Qed.

(** [String(z)] reads back as [z]. *)
Lemma readInteger_ofZ (z : Z) : readInteger (ofZ z) = z.
Proof.
  unfold ofZ. destruct (Z.ltb_spec z 0) as [Hneg | Hpos].
  - cbn [app readInteger]. rewrite N.eqb_refl.
    rewrite readDecimal_digits by apply log2_fuel.
    rewrite N2Z.inj_abs_N. lia.
  - cbn [app].
    pose proof (digits_isDigit (S (N.to_nat (N.log2 (Z.abs_N z)))) (Z.abs_N z)) as Hd.
    pose proof (@readDecimal_digits _ _ (log2_fuel (Z.abs_N z))) as Hr.
    destruct (digits (S (N.to_nat (N.log2 (Z.abs_N z)))) (Z.abs_N z)) as [|c r] eqn:E.
    { cbn [digits] in E. apply (f_equal (@length cu)) in E.
      rewrite length_app in E. simpl in E. lia. }
    cbn [readInteger]. cbn [forallb] in Hd. apply andb_true_iff in Hd as [Hc _].
    destruct (N.eqb_spec c (ch "-")) as [-> | _]; [discriminate|].
    rewrite Hr, N2Z.inj_abs_N. lia.
Qed.

Lemma ofZ_inj (a b : Z) : ofZ a = ofZ b -> a = b.
Proof.
  intro H. rewrite <- (readInteger_ofZ a), <- (readInteger_ofZ b). now rewrite H.
Qed.

Lemma fixedWidth_length (k : nat) : forall n, length (fixedWidth k n) = k.
Proof.
  induction k as [|k IH]; intro n; [reflexivity|].
  cbn [fixedWidth]. rewrite length_app, IH. simpl. lia.
Qed.

Lemma readDecimal_fixedWidth (k : nat) : forall n,
  (n < 10 ^ N.of_nat k)%N -> readDecimal (fixedWidth k n) = n.
Proof.
  induction k as [|k IH]; intros n Hn.
  - change (10 ^ N.of_nat 0)%N with 1%N in Hn. assert (n = 0%N) by lia. now subst.
  - cbn [fixedWidth]. rewrite readDecimal_snoc.
    rewrite Nat2N.inj_succ, N.pow_succ_r' in Hn.
    rewrite IH by (apply N.Div0.div_lt_upper_bound; lia).
    rewrite (N.add_comm 48), N.add_sub.
    symmetry. apply N.div_mod. discriminate.
Qed.

Lemma ofZ_dateUnit (z : Z) : forallb dateUnit (ofZ z) = true.
Proof.
  unfold ofZ. rewrite forallb_app. apply andb_true_iff. split.
  - destruct (Z.ltb z 0); reflexivity.
  - pose proof (digits_isDigit (S (N.to_nat (N.log2 (Z.abs_N z)))) (Z.abs_N z)) as Hd.
    rewrite forallb_forall in Hd |- *. intros c Hc. unfold dateUnit.
    now rewrite (Hd c Hc).
Qed.

Lemma padStart_dateUnit (k : nat) (s : jsstring) :
  forallb dateUnit s = true -> forallb dateUnit (padStart k (ch "0") s) = true.
Proof.
  intro Hs. unfold padStart. rewrite forallb_app, Hs, andb_true_r.
  induction (k - length s) as [|m IH]; [reflexivity | exact IH].
Qed.

Lemma dateStringOf_dateUnit (date : JsDate) :
  forallb dateUnit (dateStringOf date) = true.
Proof.
  unfold dateStringOf. cbn zeta.
  rewrite !forallb_app, !padStart_dateUnit by apply ofZ_dateUnit. reflexivity.
Qed.

(** A unit that a string's units all differ from does not occur in it. *)
Lemma count_absent (P : cu -> bool) (c : cu) (s : jsstring) :
  P c = false -> forallb P s = true -> count c s = 0.
Proof.
  intros Hc Hs. unfold count. apply count_occ_not_In.
  intro Hin. rewrite forallb_forall in Hs. rewrite (Hs c Hin) in Hc. discriminate.
Qed.

Lemma count_app (c : cu) (a b : jsstring) : count c (a ++ b) = count c a + count c b.
Proof. unfold count. apply count_occ_app. Qed.

(** X4.  For a date whose year has at most four digits, the date string
    is ten units long, has hyphens at offsets 4 and 7, and its three
    fields read back as the year, the month counted from 1 and the day of
    the parsed date. *)
Theorem dateString_round_trip (date : JsDate) :
  (0 <= getFullYear date <= 9999)%Z ->
  (0 <= getMonth date <= 11)%Z ->
  (1 <= getDate date <= 31)%Z ->
  let s := dateStringOf date in
  length s = 10 /\
  nth_error s 4 = Some (ch "-") /\ nth_error s 7 = Some (ch "-") /\
  Z.of_N (readDecimal (slice s 0 4)) = getFullYear date /\
  Z.of_N (readDecimal (slice s 5 7)) = (getMonth date + 1)%Z /\
  Z.of_N (readDecimal (slice s 8 10)) = getDate date.
Proof.
  intros Hy Hm Hd. cbn zeta. rewrite (dateStringOf_iso date Hy Hm Hd).
  unfold isoDate.
  set (y := fixedWidth 4 (Z.to_N (getFullYear date))).
  set (m := fixedWidth 2 (Z.to_N (getMonth date + 1))).
  set (d := fixedWidth 2 (Z.to_N (getDate date))).
  assert (Hly : length y = 4) by apply fixedWidth_length.
  assert (Hlm : length m = 2) by apply fixedWidth_length.
  assert (Hld : length d = 2) by apply fixedWidth_length.
  assert (Hry : Z.of_N (readDecimal y) = getFullYear date).
  { subst y. rewrite readDecimal_fixedWidth; [lia|].
    change (10 ^ N.of_nat 4)%N with 10000%N. lia. }
  assert (Hrm : Z.of_N (readDecimal m) = (getMonth date + 1)%Z).
  { subst m. rewrite readDecimal_fixedWidth; [lia|].
    change (10 ^ N.of_nat 2)%N with 100%N. lia. }
  assert (Hrd : Z.of_N (readDecimal d) = getDate date).
  { subst d. rewrite readDecimal_fixedWidth; [lia|].
    change (10 ^ N.of_nat 2)%N with 100%N. lia. }
  clearbody y m d.
  destruct y as [|y0 [|y1 [|y2 [|y3 [|? ?]]]]]; try discriminate.
  destruct m as [|m0 [|m1 [|? ?]]]; try discriminate.
  destruct d as [|d0 [|d1 [|? ?]]]; try discriminate.
  repeat split; assumption.
Qed.

(** X5.  Whatever integers the parsed date gives for year, month and day,
    the date string holds only digits and hyphens, so the reference
    inserted for it holds no bar and just its own two closing brackets. *)
Theorem date_reference_units (date : JsDate) :
  forallb dateUnit (dateStringOf date) = true /\
  count (ch "|") (reference (dateStringOf date)) = 0 /\
  count (ch "]") (reference (dateStringOf date)) = 2 /\
  count LF (reference (dateStringOf date)) = 0.
Proof.
  pose proof (dateStringOf_dateUnit date) as Hu.
  split; [exact Hu|]. unfold reference. rewrite !count_app.
  rewrite (count_absent dateUnit (ch "|") _ eq_refl Hu).
  rewrite (count_absent dateUnit (ch "]") _ eq_refl Hu).
  rewrite (count_absent dateUnit LF _ eq_refl Hu).
  repeat split.
Qed.

End Numerals.

(** The date string of the fifth of January 2024. *)
Lemma dateString_round_trip_witness :
  let s := dateStringOf {| getFullYear := 2024; getMonth := 0; getDate := 5 |} in
  length s = 10 /\ Z.of_N (readDecimal (slice s 0 4)) = 2024%Z /\
  Z.of_N (readDecimal (slice s 5 7)) = 1%Z /\
  Z.of_N (readDecimal (slice s 8 10)) = 5%Z.
Proof.
  destruct (@dateString_round_trip
              {| getFullYear := 2024; getMonth := 0; getDate := 5 |})
    as (Hl & _ & _ & Hy & Hm & Hd); cbn [getFullYear getMonth getDate]; try lia.
  cbn zeta. repeat split; assumption.
Defined.

(** ** What triggers the sources *)

Section Triggers.

Variable Store : Type.
Variable parseDate : jsstring -> option JsDate.
Variable formatDate : jsstring -> jsstring.
Variable formatDateDistance : jsstring -> jsstring.
Variable parseFrontmatter_content : jsstring -> jsstring.
Variable searchNotes : jsstring -> list (jsstring * option Note).
Variable upsertNoteAtom : Draft.note -> Store -> Store.
Variable getTags : unit -> list (jsstring * list jsstring).

Lemma searchToEnd_found r s i :
  matches r (skipn i s) = true -> exists found, searchToEnd r s = Some found.
Proof.
  intro Hm. destruct (searchToEnd r s) as [found|] eqn:E; [eauto|].
  rewrite (searchToEnd_None _ _ E i) in Hm. discriminate.
Qed.

Lemma searchToEnd_nowhere r s :
  (forall j, matches r (skipn j s) = false) -> searchToEnd r s = None.
Proof.
  intro H. destruct (searchToEnd r s) as [found|] eqn:E; [|reflexivity].
  apply searchToEnd_Some in E as (_ & Hm & _). rewrite H in Hm. discriminate.
Qed.

(** X7.  The note source returns a result exactly when the text ending
    at the cursor holds two opening brackets followed, up to the cursor,
    only by units other than the closing bracket, the bar and the caret.
    The result is anchored at the leftmost such pair of brackets, so that
    later opening brackets belong to the query. *)
Theorem note_source_trigger (context : CompletionContext) :
  (forall r : CompletionResult Store,
     noteCompletion parseFrontmatter_content searchNotes upsertNoteAtom context = Some r ->
     exists pre run,
       lineBefore context = pre ++ lit "[[" ++ run /\
       forallb queryChar run = true /\
       from r + length (lit "[[" ++ run) = pos context /\
       forall pre' run',
         lineBefore context = pre' ++ lit "[[" ++ run' ->
         forallb queryChar run' = true -> length pre <= length pre') /\
  (forall pre run,
     lineBefore context = pre ++ lit "[[" ++ run ->
     forallb queryChar run = true ->
     exists r : CompletionResult Store,
       noteCompletion parseFrontmatter_content searchNotes upsertNoteAtom context
       = Some r).
Proof.
  split.
  - intros r Hr. apply noteCompletion_inv in Hr as (word & Hw & Hfrom & _).
    pose proof (matchBefore_span _ _ Hw) as (Hspan & _).
    rewrite matchBefore_lineBefore in Hw.
    destruct (searchToEnd notePattern (lineBefore context)) as [found|] eqn:Es;
      [|discriminate].
    assert (Ht : text word = skipn found (lineBefore context))
      by (injection Hw as <-; reflexivity).
    apply searchToEnd_Some in Es as (Hle & Hm & Hleast).
    apply notePattern_matches in Hm as (run & Hrun & Hq).
    exists (firstn found (lineBefore context)), run.
    split; [now rewrite <- Hrun, firstn_skipn|]. split; [exact Hq|]. split.
    + rewrite Hfrom, <- Hrun, <- Ht. exact Hspan.
    + intros pre' run' Hl' Hq'. rewrite length_firstn.
      destruct (Nat.lt_ge_cases (length pre') found) as [Hlt | Hge]; [|lia].
      exfalso. specialize (Hleast _ Hlt).
      rewrite Hl', skipn_app, skipn_all, Nat.sub_diag in Hleast. cbn [skipn app] in Hleast.
      assert (Hm' : matches notePattern (lit "[[" ++ run') = true)
        by (apply notePattern_matches; eauto).
      rewrite Hm' in Hleast. discriminate.
  - intros pre run Hl Hq. unfold noteCompletion. rewrite matchBefore_lineBefore.
    destruct (@searchToEnd_found notePattern (lineBefore context) (length pre))
      as [found ->]; [|eauto].
    rewrite Hl, skipn_app, skipn_all, Nat.sub_diag. cbn [skipn app].
    apply notePattern_matches. eauto.
Qed.

(** X8.  The tag source returns a result only when the text ending at the
    cursor holds a hash followed, up to the cursor, only by letters,
    digits, hyphens, underscores and slashes; the anchor is then the
    offset after that hash. *)
Theorem tag_source_trigger (context : CompletionContext) (r : CompletionResult Store) :
  tagCompletion getTags context = Some r ->
  exists pre run,
    lineBefore context = pre ++ ch "#" :: run /\
    forallb tagChar run = true /\
    from r + length run = pos context.
Proof.
  intro Hr. apply tagCompletion_inv in Hr as (word & Hw & Hfrom & _).
  pose proof (matchBefore_span _ _ Hw) as (Hspan & _).
  rewrite matchBefore_lineBefore in Hw.
  destruct (searchToEnd tagPattern (lineBefore context)) as [found|] eqn:Es;
    [|discriminate].
  assert (Ht : text word = skipn found (lineBefore context))
    by (injection Hw as <-; reflexivity).
  apply searchToEnd_Some in Es as (_ & Hm & _).
  apply tagPattern_matches in Hm as (run & Hrun & Hq).
  exists (firstn found (lineBefore context)), run.
  split; [now rewrite <- Hrun, firstn_skipn|]. split; [exact Hq|].
  rewrite Ht, Hrun in Hspan. simpl in Hspan. lia.
Qed.

(** Where the note expression first matches, the date expression first
    matches too. *)
Lemma date_search_at_note (str : jsstring) (found : nat) :
  searchToEnd notePattern str = Some found ->
  searchToEnd datePattern str = Some found.
Proof.
  intros Hs. apply searchToEnd_Some in Hs as (Hle & Hm & Hleast).
  apply searchToEnd_least; [exact Hle | |].
  - apply datePattern_matches. now left.
  - intros j Hj.
    destruct (matches datePattern (skipn j str)) eqn:E; [|reflexivity].
    exfalso. apply datePattern_matches in E as [E | E].
    + rewrite (Hleast j Hj) in E. discriminate.
    + apply (forallb_skipn isWord (found - j)) in E.
      rewrite skipn_skipn in E.
      replace (found - j + j) with found in E by lia.
      apply notePattern_matches in Hm as (run & Hrun & _).
      rewrite Hrun in E. discriminate.
Qed.

(** X9.  In every context in which the note source matches, the date
    source matches the same token and derives the same query from it.
    So the results of the two are anchored alike, and the date source
    adds its option exactly when that query is not empty and parses as a
    date. *)
Theorem date_shares_note_token (context : CompletionContext) (word : Match) :
  matchBefore context notePattern = Some word ->
  matchBefore context datePattern = Some word /\
  replaceLeading (lit "[[") (text word) = skipn 2 (text word) /\
  (forall (rn rd : CompletionResult Store),
     noteCompletion parseFrontmatter_content searchNotes upsertNoteAtom context = Some rn ->
     dateCompletion parseDate formatDate formatDateDistance context = Some rd ->
     from rd = from rn) /\
  (dateCompletion (Store := Store) parseDate formatDate formatDateDistance context = None
   <-> skipn 2 (text word) = [] \/ parseDate (skipn 2 (text word)) = None).
Proof.
  intro Hw.
  assert (Hd : matchBefore context datePattern = Some word).
  { rewrite matchBefore_lineBefore in Hw |- *.
    destruct (searchToEnd notePattern (lineBefore context)) as [found|] eqn:Es;
      [|discriminate].
    now rewrite (date_search_at_note _ Es). }
  assert (Hq : replaceLeading (lit "[[") (text word) = skipn 2 (text word)).
  { apply matchBefore_span in Hw as (_ & _ & Hm).
    apply notePattern_matches in Hm as (run & -> & _). reflexivity. }
  split; [exact Hd|]. split; [exact Hq|]. split.
  - intros rn rd Hrn Hrd.
    apply noteCompletion_inv in Hrn as (wn & Hwn & -> & _).
    apply dateCompletion_inv in Hrd as (wd & date & o & f & Hwd & _ & _ & -> & _).
    cbn [from]. congruence.
  - unfold dateCompletion. rewrite Hd, Hq.
    destruct (skipn 2 (text word)) as [|c q] eqn:Eq.
    + cbn. split; auto.
    + cbn [truthy negb].
      destruct (parseDate (c :: q)); split; intro H; try discriminate; auto.
      destruct H; discriminate.
Qed.

Lemma upToBreak_noLF (d : jsstring) :
  forallb (fun c => negb (N.eqb c LF)) (upToBreak d) = true.
Proof.
  induction d as [|c d IH]; [reflexivity|]. simpl.
  destruct (N.eqb c LF) eqn:E; [reflexivity|]. simpl. now rewrite E.
Qed.

Lemma forallb_rev (f : cu -> bool) (l : jsstring) :
  forallb f l = true -> forallb f (rev l) = true.
Proof.
  rewrite !forallb_forall. intros H x Hx. apply H. now apply in_rev.
Qed.

Lemma lineBefore_noLF (context : CompletionContext) :
  forallb (fun c => negb (N.eqb c LF)) (lineBefore context) = true.
Proof.
  unfold lineBefore. apply forallb_skipn, forallb_rev, upToBreak_noLF.
Qed.




End Triggers.

(** The note source on the line [a [[b [[c]: it is anchored at the first
    pair of brackets. *)
Lemma note_source_trigger_witness :
  exists r : CompletionResult Sample.Store,
    noteCompletion Sample.content Sample.search Sample.upsert
      (Sample.context (lit "a [[b [[c")) = Some r /\
    from r <= 2.
Proof.
  destruct (@note_source_trigger Sample.Store Sample.content Sample.search
              Sample.upsert (Sample.context (lit "a [[b [[c"))) as [Honly Hif].
  destruct (Hif (lit "a [[b ") (lit "c") eq_refl eq_refl) as [r Hr].
  exists r. split; [exact Hr|].
  destruct (Honly r Hr) as (pre & run & Hl & Hq & Hspan & Hleast).
  pose proof (Hleast (lit "a ") (lit "b [[c") eq_refl eq_refl) as Hle.
  apply (f_equal (@length cu)) in Hl. rewrite !length_app in Hl, Hspan.
  change (length (lineBefore (Sample.context (lit "a [[b [[c")))) with 9 in Hl.
  change (pos (Sample.context (lit "a [[b [[c"))) with 9 in Hspan.
  rewrite length_app in Hl.
  change (length (lit "[[")) with 2 in Hl, Hspan.
  change (length (lit "a ")) with 2 in Hle. lia.
Defined.

(** The tag source on the document [#proj]. *)
Lemma tag_source_trigger_witness :
  exists (r : CompletionResult Sample.Store) pre run,
    tagCompletion Sample.tags (Sample.context (lit "#proj")) = Some r /\
    lit "#proj" = pre ++ ch "#" :: run /\ from r + length run = 5.
Proof.
  destruct (tagCompletion (Store := Sample.Store) Sample.tags
              (Sample.context (lit "#proj"))) as [r|] eqn:Hr; [|discriminate].
  destruct (@tag_source_trigger Sample.Store Sample.tags
              (Sample.context (lit "#proj")) r Hr) as (pre & run & Hl & _ & Hspan).
  exists r, pre, run. split; [reflexivity|]. split; [exact Hl | exact Hspan].
Defined.

(** The date source and the note source on the document [[[tomorrow]. *)
Lemma date_shares_note_token_witness :
  matchBefore (Sample.context (lit "[[tomorrow")) datePattern
  = Some {| m_from := 0; m_to := 10; text := lit "[[tomorrow" |} /\
  dateCompletion (Store := Sample.Store) Sample.parse Sample.format Sample.format
    (Sample.context (lit "[[tomorrow")) <> None.
Proof.
  destruct (@date_shares_note_token Sample.Store Sample.parse Sample.format
              Sample.format Sample.content Sample.search Sample.upsert
              (Sample.context (lit "[[tomorrow"))
              {| m_from := 0; m_to := 10; text := lit "[[tomorrow" |} eq_refl)
    as (Hd & _ & _ & Hnone).
  split; [exact Hd|].
  intro H. apply Hnone in H. destruct H; discriminate.
Defined.


(** ** Bracket consumption *)

Section BracketConsumption.

Variable Store : Type.
Variable parseDate : jsstring -> option JsDate.
Variable formatDate : jsstring -> jsstring.
Variable formatDateDistance : jsstring -> jsstring.
Variable parseFrontmatter_content : jsstring -> jsstring.
Variable upsertNoteAtom : Draft.note -> Store -> Store.

(** C1.  The replacement end of the date, note-link and create-note apply
    callbacks is [to + 2] exactly when the two units of the document after
    [to] are both the closing bracket, and [to] otherwise.  The lookahead
    only reads the document: it returns and leaves the world as it was.
    The option of a date result, every listed note option and every create
    option has an apply callback, and that callback dispatches the
    transaction whose change ends at that replacement end. *)
Theorem bracket_consumption_rule :
  (forall (d : jsstring) (to : nat),
     (slice d to (to + 2) = lit "]]" <->
      nth_error d to = Some (ch "]") /\ nth_error d (to + 1) = Some (ch "]")) /\
     (slice d to (to + 2) = lit "]]" -> consumedTo d to = to + 2) /\
     (slice d to (to + 2) <> lit "]]" -> consumedTo d to = to)) /\
  (forall (a b : nat) (w : World Store),
     sliceDoc a b w = Returned (slice (doc (view w)) a b) w) /\
  (forall d text from to,
     ch_from (changes (linkTransaction d text from to)) = from /\
     ch_to (changes (linkTransaction d text from to)) = consumedTo d to) /\
  (forall context r,
     dateCompletion parseDate formatDate formatDateDistance context = Some r ->
     exists o f text,
       options r = [o] /\ apply o = Some f /\
       forall from to (w : World Store),
         f from to w = dispatch (linkTransaction (doc (view w)) text from to) w) /\
  (forall id note,
     exists f text,
       apply (noteOption parseFrontmatter_content (id, note)) = Some f /\
       forall from to (w : World Store),
         f from to w = dispatch (linkTransaction (doc (view w)) text from to) w) /\
  (forall query,
     exists f,
       apply (createNewNoteOption upsertNoteAtom query) = Some f /\
       forall from to (w : World Store), exists text,
         f from to w = dispatch (linkTransaction (doc (view w)) text from to)
                                (afterCreate upsertNoteAtom query w)).
Proof.
  split; [|split; [|split; [|split; [|split]]]].
  - intros d to. split; [apply slice_two|]. split; intro H.
    + rewrite <- consumedTo_slice.
      apply eqb_eq in H. now rewrite H.
    + rewrite <- consumedTo_slice.
      destruct (Js.eqb (slice d to (to + 2)) (lit "]]")) eqn:E; [|reflexivity].
      apply eqb_eq in E. contradiction.
  - reflexivity.
  - intros d text from to. split; reflexivity.
  - intros context r Hr.
    apply dateCompletion_inv in Hr
      as (word & date & o & f & _ & _ & _ & -> & _ & _ & Hf & Hrun).
    exists o, f. eexists. split; [reflexivity|]. split; [exact Hf | exact Hrun].
  - intros id note.
    destruct (noteOption_apply Store parseFrontmatter_content id note)
      as (f & Hf & Hrun).
    exists f. eexists. split; [exact Hf | exact Hrun].
  - intros query.
    destruct (createNewNoteOption_apply upsertNoteAtom query) as (f & Hf & Hrun).
    exists f. split; [exact Hf|]. intros from to w. eexists. apply Hrun.
Qed.

End BracketConsumption.

(** The rule at the documents [ab]]] and [ab]c] with a match that ends at
    2, and the option of the date source, a listed note option and the
    create option applied to the match [ab] of the document [ab]]]: each
    takes the two closing brackets with it. *)
Lemma bracket_consumption_rule_witness :
  consumedTo (lit "ab]]") 2 = 4 /\
  consumedTo (lit "ab]c") 2 = 2 /\
  (exists r o f w',
     dateCompletion (Store := Sample.Store) Sample.parse Sample.format Sample.format
       (Sample.context (lit "ab")) = Some r /\
     options r = [o] /\ apply o = Some f /\
     f 0 2 (Sample.world (lit "ab]]")) = Returned tt w' /\
     doc (view w') = lit "[[2024-01-05]]") /\
  (exists f w',
     apply (noteOption (Store := Sample.Store) Sample.content (lit "7", None)) = Some f /\
     f 0 2 (Sample.world (lit "ab]]")) = Returned tt w' /\
     doc (view w') = lit "[[7]]") /\
  (exists f w',
     apply (createNewNoteOption Sample.upsert (lit "ab")) = Some f /\
     f 0 2 (Sample.world (lit "ab]]")) = Returned tt w' /\
     doc (view w') = lit "[[1700000000000|ab]]").
Proof.
  pose proof (@bracket_consumption_rule Sample.Store Sample.parse Sample.format
                Sample.format Sample.content Sample.upsert)
    as (Hrule & _ & _ & Hdate & Hnote & Hcreate).
  split; [|split; [|split; [|split]]].
  - apply (Hrule (lit "ab]]") 2). reflexivity.
  - apply (Hrule (lit "ab]c") 2). discriminate.
  - destruct (dateCompletion (Store := Sample.Store) Sample.parse Sample.format
                Sample.format (Sample.context (lit "ab"))) as [r|] eqn:Hr;
      [|discriminate].
    destruct (Hdate _ r Hr) as (o & f & text & Ho & Hf & _).
    exists r, o, f. eexists. split; [reflexivity|]. split; [exact Ho|].
    split; [exact Hf|].
    cbn in Hr. injection Hr as <-. cbn in Ho. injection Ho as <-.
    cbn in Hf. injection Hf as <-. split; reflexivity.
  - destruct (Hnote (lit "7") None) as (f & text & Hf & _).
    exists f. eexists. split; [exact Hf|].
    cbn in Hf. injection Hf as <-. split; reflexivity.
  - destruct (Hcreate (lit "ab")) as (f & Hf & _).
    exists f. eexists. split; [exact Hf|].
    cbn in Hf. injection Hf as <-. split; reflexivity.
Defined.

(** ** The date source *)

Section DateSource.

Variable Store : Type.
Variable parseDate : jsstring -> option JsDate.
Variable formatDate : jsstring -> jsstring.
Variable formatDateDistance : jsstring -> jsstring.




End DateSource.


(** ** The options of the note source *)

Section NoteOptions.

Variable Store : Type.
Variable parseFrontmatter_content : jsstring -> jsstring.
Variable searchNotes : jsstring -> list (jsstring * option Note).
Variable upsertNoteAtom : Draft.note -> Store -> Store.

(** The query of the note source holds no line feed, and no carriage
    return when the document holds none. *)
Lemma note_query_lacks (context : CompletionContext) (word : Match) :
  matchBefore context notePattern = Some word ->
  lacks LF (skipn 2 (text word)) = true /\
  (lacks CR (doc (state context)) = true -> lacks CR (skipn 2 (text word)) = true).
Proof.
  rewrite matchBefore_lineBefore.
  destruct (searchToEnd notePattern (lineBefore context)) as [found|]; [|discriminate].
  intro Hw. assert (Ht : text word = skipn found (lineBefore context))
    by (injection Hw as <-; reflexivity).
  rewrite Ht. split.
  - apply lacks_skipn, lacks_skipn. exact (lineBefore_noLF context).
  - intro Hdoc. apply lacks_skipn, lacks_skipn.
    destruct (lineBefore_suffix context) as [x Hx].
    apply (lacks_firstn CR (pos context)) in Hdoc.
    rewrite Hx, lacks_app in Hdoc. now apply andb_true_iff in Hdoc as [_ Hdoc].
Qed.

(** The link of the create option holds a line feed or a carriage return
    only if the query does. *)
Lemma create_link_lacks (c : cu) (now : Z) (query : jsstring) :
  dateUnit c = false ->
  lacks c (lit "[[") = true -> lacks c (lit "|") = true -> lacks c (lit "]]") = true ->
  lacks c query = true ->
  lacks c (lit "[[" ++ ofZ now ++ lit "|" ++ query ++ lit "]]") = true.
Proof.
  intros Hd Ho Hb Hc Hq. rewrite !lacks_app, Hq, Ho, Hb, Hc.
  now rewrite (lacks_class dateUnit c _ Hd (ofZ_dateUnit now)).
Qed.



End NoteOptions.




(** ** Pasting a URL *)

Section Paste.

Lemma lacks_slice (c : cu) (d : jsstring) (a b : nat) :
  lacks c d = true -> lacks c (slice d a b) = true.
Proof. intro H. unfold slice. now apply lacks_firstn, lacks_skipn. Qed.

Lemma rangeTo_cursor (a : nat) : rangeTo {| anchor := a; head := a |} = a.
Proof. apply Nat.max_id. Qed.

(** The text the handler inserts, by the selected text. *)
Lemma markdown_cases (selectedText clipboardText : jsstring) :
  (if truthy selectedText
   then lit "[" ++ selectedText ++ lit "](" ++ clipboardText ++ lit ")"
   else clipboardText)
  = match selectedText with
    | [] => clipboardText
    | _ :: _ => lit "[" ++ selectedText ++ lit "](" ++ clipboardText ++ lit ")"
    end.
Proof. now destruct selectedText. Qed.

(** A URL without carriage return pasted into a document without: the
    transaction goes through. *)
Lemma paste_url_goes_through (onPaste : bool) (event : ClipboardEvent)
  (view : EditorState) (r : SelectionRange) :
  let clipboardText := match clipboardData event with Some t => t | None => [] end in
  let selectedText := slice (doc view) (rangeFrom r) (rangeTo r) in
  let inserted :=
    match selectedText with
    | [] => clipboardText
    | _ :: _ => lit "[" ++ selectedText ++ lit "](" ++ clipboardText ++ lit ")"
    end in
  let view' :=
    {| doc := firstn (rangeFrom r) (doc view) ++ inserted ++ skipn (rangeTo r) (doc view);
       selection := cursorAt (rangeFrom r + length inserted) |} in
  testPrefix urlPattern clipboardText = true ->
  lacks CR clipboardText = true ->
  lacks CR (doc view) = true ->
  nth_error (ranges (selection view)) (mainIndex (selection view)) = Some r ->
  rangeTo r <= length (doc view) ->
  paste onPaste event view
  = Some {| p_view := view'; p_event := preventDefault event;
            p_onPaste := if onPaste then [(preventDefault event, view')] else [] |}.
Proof.
  cbn zeta. intros Hurl Hcr Hdoc Hr Hto.
  unfold paste. rewrite Hurl, Hr.
  set (clipboardText := match clipboardData event with Some t => t | None => [] end)
    in *.
  set (selectedText := slice (doc view) (rangeFrom r) (rangeTo r)).
  rewrite markdown_cases.
  match goal with
  | |- context [Build_ChangeSpec _ _ ?m] => set (inserted := m)
  end.
  assert (Hins : lacks CR inserted = true).
  { subst inserted. pose proof (@lacks_slice CR (doc view) (rangeFrom r) (rangeTo r) Hdoc) as Hsel.
    fold selectedText in Hsel.
    destruct selectedText as [|c s]; [exact Hcr|].
    now rewrite !lacks_app, Hsel, Hcr. }
  assert (Hft : rangeFrom r <= rangeTo r) by (unfold rangeFrom, rangeTo; lia).
  rewrite update_replace; [| exact Hft | exact Hto].
  rewrite (lineBreaks_lacks_CR _ Hins).
  rewrite (proj2 (Nat.leb_le _ _)) by lia.
  reflexivity.
Qed.

(** C7.  A URL that ends with a carriage return and a line feed is pasted
    with the cursor at the end of the document [x].  The document would
    take the eleven units of the URL and one line break, which puts its
    end at offset 13, while the handler asks for the cursor at offset 14,
    thirteen units after the cursor: the dispatch throws, so that the
    default insertion is not prevented and [onPaste] is not called.
    Pasted before the last unit of the document [xy], the same payload
    goes in and the cursor is left at offset 14, after the [y], instead of
    offset 13, the end of the inserted text. *)
Theorem paste_url_with_line_break :
  let url := lit "https://a.b" ++ [CR; LF] in
  let event := {| clipboardData := Some url; defaultPrevented := false |} in
  let cursor := {| ranges := [{| anchor := 1; head := 1 |}]; mainIndex := 0 |} in
  hasUrlPrefix url /\
  length url = 13 /\
  paste true event {| doc := lit "x"; selection := cursor |} = None /\
  exists out,
    paste true event {| doc := lit "xy"; selection := cursor |} = Some out /\
    doc (p_view out) = lit "xhttps://a.b" ++ [LF] ++ lit "y" /\
    length (lit "xhttps://a.b" ++ [LF]) = 13 /\
    selection (p_view out)
    = {| ranges := [{| anchor := 14; head := 14 |}]; mainIndex := 0 |}.
Proof.
  cbn zeta. split; [right; eexists; reflexivity|].
  split; [reflexivity|]. split; [reflexivity|].
  eexists. split; [reflexivity|]. repeat split.
Qed.

(** X15.  When the text/plain payload of a paste starts with [http://] or
    [https://] and neither it nor the document holds a carriage return,
    the handler replaces the main selection, which lies within the
    document, by the payload alone if the selected text is empty and by
    the selected text between brackets followed by the payload between
    parentheses if it is not; it leaves one cursor, at the end of the
    inserted text, and prevents the default insertion.  With a payload
    that does not start so the handler leaves view and event as they are.
    In both cases [onPaste], when given, is called once, after the
    transaction. *)
Theorem paste_url_to_link (onPaste : bool) (event : ClipboardEvent) (view : EditorState) :
  let clipboardText := match clipboardData event with Some t => t | None => [] end in
  (hasUrlPrefix clipboardText ->
   lacks CR clipboardText = true ->
   lacks CR (doc view) = true ->
   forall r,
     nth_error (ranges (selection view)) (mainIndex (selection view)) = Some r ->
     rangeTo r <= length (doc view) ->
     let selectedText := slice (doc view) (rangeFrom r) (rangeTo r) in
     let inserted :=
       match selectedText with
       | [] => clipboardText
       | _ :: _ => lit "[" ++ selectedText ++ lit "](" ++ clipboardText ++ lit ")"
       end in
     exists out,
       paste onPaste event view = Some out /\
       doc (p_view out) =
         firstn (rangeFrom r) (doc view) ++ inserted ++ skipn (rangeTo r) (doc view) /\
       selection (p_view out)
       = {| ranges := [{| anchor := rangeFrom r + length inserted;
                          head := rangeFrom r + length inserted |}];
            mainIndex := 0 |} /\
       defaultPrevented (p_event out) = true /\
       clipboardData (p_event out) = clipboardData event /\
       p_onPaste out = (if onPaste then [(p_event out, p_view out)] else [])) /\
  (~ hasUrlPrefix clipboardText ->
   paste onPaste event view
   = Some {| p_view := view; p_event := event;
             p_onPaste := if onPaste then [(event, view)] else [] |}).
Proof.
  cbn zeta. split.
  - intros Hurl Hcr Hdoc r Hr Hto. apply urlPattern_test in Hurl.
    rewrite (@paste_url_goes_through onPaste event view r Hurl Hcr Hdoc Hr Hto).
    eexists. split; [reflexivity|]. cbn. repeat split.
  - intro Hurl. unfold paste.
    destruct (testPrefix urlPattern
                match clipboardData event with Some t => t | None => [] end) eqn:E.
    + apply urlPattern_test in E. contradiction.
    + reflexivity.
Qed.

(** X14.  On a view whose main range lies within the document, whatever
    is pasted, a paste that goes through leaves such a view again and has
    called [onPaste], when given, exactly once, with the event and the
    view as it leaves them.  It does go through when neither the payload
    nor the document holds a carriage return. *)
Theorem paste_keeps_view_wellFormed (onPaste : bool) (event : ClipboardEvent)
  (view : EditorState) :
  wellFormed view ->
  (forall out,
     paste onPaste event view = Some out ->
     wellFormed (p_view out) /\
     p_onPaste out = (if onPaste then [(p_event out, p_view out)] else [])) /\
  (lacks CR (match clipboardData event with Some t => t | None => [] end) = true ->
   lacks CR (doc view) = true ->
   exists out, paste onPaste event view = Some out).
Proof.
  intros (r & Hr & Hto).
  assert (Hft : rangeFrom r <= rangeTo r) by (unfold rangeFrom, rangeTo; lia).
  split.
  - intro out. unfold paste.
    destruct (testPrefix urlPattern
                match clipboardData event with Some t => t | None => [] end).
    + rewrite Hr.
      match goal with
      | |- context [Build_ChangeSpec _ _ ?m] => generalize m
      end.
      intro markdown. rewrite update_replace; [| exact Hft | exact Hto].
      destruct (_ <=? _) eqn:E; [|discriminate].
      apply Nat.leb_le in E. intro H. injection H as <-.
      cbn [p_view p_event p_onPaste]. split; [|reflexivity].
      unfold wellFormed. cbn [selection doc cursorAt ranges mainIndex nth_error].
      eexists. split; [reflexivity|].
      rewrite rangeTo_cursor, !length_app, length_firstn, length_skipn. lia.
    + intro H. injection H as <-. cbn [p_view p_event p_onPaste].
      split; [|reflexivity]. exists r. auto.
  - intros Hcr Hdoc.
    destruct (testPrefix urlPattern
                match clipboardData event with Some t => t | None => [] end) eqn:E.
    + rewrite (@paste_url_goes_through onPaste event view r E Hcr Hdoc Hr Hto). eauto.
    + unfold paste. rewrite E. eauto.
Qed.

End Paste.

(** Pasting [https://example.com] over the selected [foo] of the
    document [a foo b] and into the empty selection at its start, and
    pasting [hello]. *)
Lemma paste_url_to_link_witness :
  (exists out,
     paste true {| clipboardData := Some (lit "https://example.com");
                   defaultPrevented := false |}
           {| doc := lit "a foo b";
              selection := {| ranges := [{| anchor := 2; head := 5 |}]; mainIndex := 0 |} |}
     = Some out /\
     doc (p_view out) = lit "a [foo](https://example.com) b" /\
     selection (p_view out)
     = {| ranges := [{| anchor := 28; head := 28 |}]; mainIndex := 0 |} /\
     defaultPrevented (p_event out) = true) /\
  (exists out,
     paste true {| clipboardData := Some (lit "https://example.com");
                   defaultPrevented := false |}
           {| doc := lit "a foo b";
              selection := {| ranges := [{| anchor := 0; head := 0 |}]; mainIndex := 0 |} |}
     = Some out /\
     doc (p_view out) = lit "https://example.coma foo b" /\
     selection (p_view out)
     = {| ranges := [{| anchor := 19; head := 19 |}]; mainIndex := 0 |}) /\
  (exists out,
     paste true {| clipboardData := Some (lit "hello"); defaultPrevented := false |}
           {| doc := lit "a foo b";
              selection := {| ranges := [{| anchor := 0; head := 0 |}]; mainIndex := 0 |} |}
     = Some out /\
     doc (p_view out) = lit "a foo b" /\
     defaultPrevented (p_event out) = false).
Proof.
  split; [|split].
  - destruct (@paste_url_to_link true
                {| clipboardData := Some (lit "https://example.com");
                   defaultPrevented := false |}
                {| doc := lit "a foo b";
                   selection := {| ranges := [{| anchor := 2; head := 5 |}];
                                   mainIndex := 0 |} |}) as [Hurl _].
    destruct (Hurl (or_intror (ex_intro _ (lit "example.com") eq_refl)) eq_refl eq_refl
                {| anchor := 2; head := 5 |} eq_refl)
      as (out & Hout & Hdoc & Hsel & Hprevented & _).
    + vm_compute. lia.
    + exists out. split; [exact Hout|]. split; [|split; [|exact Hprevented]].
      * rewrite Hdoc. reflexivity.
      * rewrite Hsel. reflexivity.
  - destruct (@paste_url_to_link true
                {| clipboardData := Some (lit "https://example.com");
                   defaultPrevented := false |}
                {| doc := lit "a foo b";
                   selection := {| ranges := [{| anchor := 0; head := 0 |}];
                                   mainIndex := 0 |} |}) as [Hurl _].
    destruct (Hurl (or_intror (ex_intro _ (lit "example.com") eq_refl)) eq_refl eq_refl
                {| anchor := 0; head := 0 |} eq_refl)
      as (out & Hout & Hdoc & Hsel & _).
    + vm_compute. lia.
    + exists out. split; [exact Hout|]. split.
      * rewrite Hdoc. reflexivity.
      * rewrite Hsel. reflexivity.
  - destruct (@paste_url_to_link true
                {| clipboardData := Some (lit "hello"); defaultPrevented := false |}
                {| doc := lit "a foo b";
                   selection := {| ranges := [{| anchor := 0; head := 0 |}];
                                   mainIndex := 0 |} |}) as [_ Hother].
    eexists. split; [apply Hother|split; reflexivity].
    intros [[rest Hrest] | [rest Hrest]]; discriminate.
Defined.

(** A URL pasted into the editor holding [a foo b] with the cursor at its
    end. *)
Lemma paste_keeps_view_wellFormed_witness :
  exists out,
    paste true {| clipboardData := Some (lit "https://a.b"); defaultPrevented := false |}
          (Sample.editor (lit "a foo b")) = Some out /\
    wellFormed (p_view out) /\ length (p_onPaste out) = 1.
Proof.
  destruct (@paste_keeps_view_wellFormed true
              {| clipboardData := Some (lit "https://a.b"); defaultPrevented := false |}
              (Sample.editor (lit "a foo b")))
    as (Hafter & Hgoes).
  - exists {| anchor := 7; head := 7 |}. split; [reflexivity | vm_compute; lia].
  - destruct (Hgoes eq_refl eq_refl) as [out Hout].
    destruct (Hafter out Hout) as [Hwf Hcalls].
    exists out. split; [exact Hout|]. split; [exact Hwf|]. now rewrite Hcalls.
Defined.

(** ** Applying an option twice *)

Section Reapply.

Variable Store : Type.
Variable parseDate : jsstring -> option JsDate.
Variable formatDate : jsstring -> jsstring.
Variable formatDateDistance : jsstring -> jsstring.
Variable parseFrontmatter_content : jsstring -> jsstring.

Lemma consumedTo_app (a b : jsstring) :
  consumedTo (a ++ b) (length a) = length a + consumedTo b 0.
Proof.
  unfold consumedTo.
  rewrite !nth_error_app2 by lia.
  replace (length a - length a) with 0 by lia.
  replace (length a + 1 - length a) with (0 + 1) by lia.
  destruct (nth_error b 0) as [x|]; [|lia].
  destruct (nth_error b (0 + 1)) as [y|]; [|lia].
  destruct (N.eqb x (ch "]") && N.eqb y (ch "]")); lia.
Qed.

Lemma consumedTo_closing (b : jsstring) : consumedTo (lit "]]" ++ b) 0 = 2.
Proof. reflexivity. Qed.

(** At offset 0 the rule consumes two closing brackets or nothing. *)
Lemma consumedTo_head (b : jsstring) :
  (consumedTo b 0 = 2 /\ b = lit "]]" ++ skipn 2 b) \/
  (consumedTo b 0 = 0 /\ forall b', b <> lit "]]" ++ b').
Proof.
  unfold consumedTo. destruct b as [|x [|y b]]; simpl.
  - right. split; [reflexivity | intros b' H; discriminate].
  - right. split; [reflexivity | intros b' H; discriminate].
  - destruct (N.eqb_spec x 93) as [-> | Hx]; simpl.
    + destruct (N.eqb_spec y 93) as [-> | Hy]; simpl.
      * left. split; reflexivity.
      * right. split; [reflexivity|]. intros b' H. injection H as H _. contradiction.
    + right. split; [reflexivity|]. intros b' H. injection H as H _. contradiction.
Qed.

Lemma replace_within (a x b t : jsstring) :
  firstn (length a) (a ++ x ++ b) ++ t ++ skipn (length a + length x) (a ++ x ++ b)
  = a ++ t ++ b.
Proof.
  rewrite firstn_app, firstn_all, Nat.sub_diag. cbn [firstn]. rewrite app_nil_r.
  rewrite skipn_app, skipn_all2 by lia. cbn [app].
  replace (length a + length x - length a) with (length x) by lia.
  rewrite skipn_app, skipn_all, Nat.sub_diag. reflexivity.
Qed.

Lemma count_skipn (c : cu) (n : nat) : forall s, count c (skipn n s) <= count c s.
Proof.
  unfold count. induction n as [|n IH]; intros [|x s]; simpl; try lia.
  specialize (IH s). destruct (N.eq_dec x c); lia.
Qed.

(** The link transaction over the part [x] of the document [pre ++ x ++
    tail], the consumed end being the end of [x]: when it goes through,
    what the document takes of the text stands where [x] stood; it goes
    through when the text holds no line feed; when it is refused, the
    world is as it was. *)
Lemma link_over (text pre x tail : jsstring) (to : nat) (w : World Store) :
  doc (view w) = pre ++ x ++ tail ->
  length pre <= to -> to <= length (doc (view w)) ->
  consumedTo (doc (view w)) to = length pre + length x ->
  (forall w',
     dispatch (linkTransaction (doc (view w)) text (length pre) to) w = Returned tt w' ->
     doc (view w') = pre ++ lineBreaks text ++ tail) /\
  (lacks LF text = true ->
   exists w',
     dispatch (linkTransaction (doc (view w)) text (length pre) to) w = Returned tt w') /\
  (forall w',
     dispatch (linkTransaction (doc (view w)) text (length pre) to) w = Thrown w' ->
     w' = w).
Proof.
  intros Hd Hft Hto Hc. split; [|split].
  - intros w' Hrun. apply dispatch_inv in Hrun as (_ & _ & _ & Hview & _).
    rewrite Hview. cbn [doc linkTransaction changes ch_from ch_to insert].
    rewrite Hc, Hd. apply replace_within.
  - intro Hlf.
    destruct (@dispatch_link_lacks_LF Store text (length pre) to w Hlf Hft Hto)
      as (w' & Hrun & _). eauto.
  - intros w' Hrun. now apply dispatch_thrown in Hrun.
Qed.

Lemma leadingClosers_none (post : jsstring) :
  leadingClosers post = 0 -> forall post', post <> lit "]]" ++ post'.
Proof. intros H post' ->. discriminate. Qed.

Lemma closers_after_body (pre body post : jsstring) :
  leadingClosers post = 0 ->
  leadingClosers (skipn (length (pre ++ lit "[[" ++ body))
                        (pre ++ reference body ++ post)) = 2.
Proof.
  intro H. unfold reference.
  replace (pre ++ (lit "[[" ++ body ++ lit "]]") ++ post)
    with ((pre ++ lit "[[" ++ body) ++ lit "]]" ++ post)
    by now rewrite <- !app_assoc.
  rewrite skipn_app, skipn_all, Nat.sub_diag. simpl. now rewrite H.
Qed.

Lemma lacks_reference (c : cu) (body : jsstring) :
  lacks c (lit "[[]]") = true -> lacks c body = true -> lacks c (reference body) = true.
Proof.
  intros Hb Hbody. unfold reference. rewrite !lacks_app, Hbody.
  change (lit "[[]]") with (lit "[[" ++ lit "]]") in Hb. rewrite lacks_app in Hb.
  apply andb_true_iff in Hb as [-> ->]. reflexivity.
Qed.

(** C8.  Let an option of the date source or a listed option of the note
    source be applied to a match that is followed by two closing
    brackets.  Its callback dispatches the link transaction of a
    reference, whose body holds no line feed in the case of the date
    option.  An application goes through whenever the body holds no line
    feed, and one that is refused leaves the world as it was.  When the
    first application goes through, the brackets are consumed: the
    reference, as the document takes it, ends with its own two closing
    brackets and is followed by what followed the consumed ones.  When
    the same option is then applied again from the same anchor, with the
    cursor before the closing brackets of the reference or after them, and
    goes through, it adds no closing bracket to the document: the
    reference is followed by what followed it, less two further closing
    brackets if there were any.  When the match was followed by exactly
    two closing brackets, the second application leaves the document as it
    is, and the body of the reference is followed by two closing brackets,
    no more. *)
Theorem closing_brackets_not_duplicated (f : nat -> nat -> M Store unit) :
  (exists context r o,
     dateCompletion parseDate formatDate formatDateDistance context = Some r /\
     In o (options r) /\ apply o = Some f) \/
  (exists id note, apply (noteOption parseFrontmatter_content (id, note)) = Some f) ->
  exists body,
    (forall from to (w : World Store),
       f from to w = dispatch (linkTransaction (doc (view w)) (reference body) from to) w) /\
    ((exists date, body = dateStringOf date /\ lacks LF body = true) \/
     (exists id note, body = id ++ titleSuffix note)) /\
    forall (pre m post : jsstring) (w0 : World Store),
      doc (view w0) = pre ++ m ++ lit "]]" ++ post ->
      let stored := reference (lineBreaks body) in
      (lacks LF body = true ->
       exists w1, f (length pre) (length pre + length m) w0 = Returned tt w1) /\
      (forall w', f (length pre) (length pre + length m) w0 = Thrown w' -> w' = w0) /\
      forall w1,
        f (length pre) (length pre + length m) w0 = Returned tt w1 ->
        doc (view w1) = pre ++ stored ++ post /\
        forall to2,
          to2 = length pre + length (lit "[[" ++ lineBreaks body) \/
          to2 = length pre + length stored ->
          (lacks LF body = true -> exists w2, f (length pre) to2 w1 = Returned tt w2) /\
          (forall w', f (length pre) to2 w1 = Thrown w' -> w' = w1) /\
          forall w2,
            f (length pre) to2 w1 = Returned tt w2 ->
            count (ch "]") (doc (view w2)) <= count (ch "]") (doc (view w1)) /\
            (exists post',
               doc (view w2) = pre ++ stored ++ post' /\
               (post' = post \/ post = lit "]]" ++ post')) /\
            (leadingClosers post = 0 ->
             doc (view w2) = doc (view w1) /\
             leadingClosers (skipn (length (pre ++ lit "[[" ++ lineBreaks body))
                                   (doc (view w2))) = 2).
Proof.
  intro Hopt.
  assert (Hlink : exists body,
             (forall from to (w : World Store),
                f from to w =
                dispatch (linkTransaction (doc (view w)) (reference body) from to) w) /\
             ((exists date, body = dateStringOf date /\ lacks LF body = true) \/
              (exists id note, body = id ++ titleSuffix note))).
  { destruct Hopt as [(context & r & o & Hr & Ho & Hf) | (id & note & Hf)].
    - apply dateCompletion_inv in Hr
        as (word & date & o' & f' & _ & _ & _ & -> & _ & _ & Hf' & Hrun).
      cbn [options] in Ho. destruct Ho as [<- | []].
      rewrite Hf in Hf'. injection Hf' as <-.
      exists (dateStringOf date). split; [exact Hrun|]. left. exists date.
      split; [reflexivity|].
      exact (lacks_class dateUnit LF _ eq_refl (dateStringOf_dateUnit date)).
    - destruct (noteOption_apply Store parseFrontmatter_content id note)
        as (f' & Hf' & Hrun).
      rewrite Hf in Hf'. injection Hf' as <-.
      exists (id ++ titleSuffix note). split; [|right; eauto].
      intros from to w. rewrite Hrun. unfold reference. now rewrite <- !app_assoc. }
  destruct Hlink as (body & Hlink & Hbody). exists body.
  split; [exact Hlink|]. split; [exact Hbody|].
  intros pre m post w0 Hd0. cbn zeta.
  set (text := reference body).
  set (stored := reference (lineBreaks body)).
  assert (Hstored : lineBreaks text = stored) by apply lineBreaks_reference.
  assert (Hlf : lacks LF body = true -> lacks LF text = true)
    by (apply lacks_reference; reflexivity).
  (* the first application *)
  assert (Hd0' : doc (view w0) = pre ++ (m ++ lit "]]") ++ post)
    by (rewrite Hd0; now rewrite <- !app_assoc).
  destruct (@link_over text pre (m ++ lit "]]") post (length pre + length m) w0 Hd0')
    as (Hdoc1 & Hgo1 & Hno1).
  { lia. }
  { rewrite Hd0, !length_app. lia. }
  { rewrite Hd0, app_assoc, <- length_app, consumedTo_app, consumedTo_closing.
    rewrite !length_app. simpl. lia. }
  rewrite Hstored in Hdoc1.
  split; [intro H; rewrite Hlink; apply Hgo1, Hlf, H|].
  split; [intros w' H; rewrite Hlink in H; now apply Hno1|].
  intros w1 Hrun1. rewrite Hlink in Hrun1. specialize (Hdoc1 w1 Hrun1).
  split; [exact Hdoc1|].
  intros to2 [-> | ->].
  - (* again, the cursor before the closing brackets *)
    destruct (@link_over text pre stored post
                (length pre + length (lit "[[" ++ lineBreaks body)) w1 Hdoc1)
      as (Hdoc2 & Hgo2 & Hno2).
    { lia. }
    { rewrite Hdoc1. unfold stored, reference. rewrite !length_app. simpl. lia. }
    { rewrite Hdoc1. unfold stored, reference.
      replace (pre ++ (lit "[[" ++ lineBreaks body ++ lit "]]") ++ post)
        with ((pre ++ lit "[[" ++ lineBreaks body) ++ lit "]]" ++ post)
        by now rewrite <- !app_assoc.
      rewrite <- length_app, consumedTo_app, consumedTo_closing.
      rewrite !length_app. simpl. lia. }
    rewrite Hstored in Hdoc2.
    split; [intro H; rewrite Hlink; apply Hgo2, Hlf, H|].
    split; [intros w' H; rewrite Hlink in H; now apply Hno2|].
    intros w2 Hrun2. rewrite Hlink in Hrun2. specialize (Hdoc2 w2 Hrun2).
    split; [rewrite Hdoc2, Hdoc1; lia|]. split.
    + exists post. split; [exact Hdoc2 | now left].
    + intro Hpost. split; [now rewrite Hdoc2, Hdoc1|].
      rewrite Hdoc2. now apply closers_after_body.
  - (* again, the cursor after the closing brackets *)
    assert (Hsplit : doc (view w1)
                     = pre ++ (stored ++ firstn (consumedTo post 0) post)
                           ++ skipn (consumedTo post 0) post).
    { rewrite Hdoc1. now rewrite <- app_assoc, firstn_skipn. }
    destruct (@link_over text pre (stored ++ firstn (consumedTo post 0) post)
                (skipn (consumedTo post 0) post) (length pre + length stored) w1 Hsplit)
      as (Hdoc2 & Hgo2 & Hno2).
    { lia. }
    { rewrite Hdoc1, !length_app. lia. }
    { rewrite Hdoc1, app_assoc, <- length_app, consumedTo_app.
      rewrite !length_app, length_firstn.
      destruct (consumedTo_head post) as [[-> Hp] | [-> _]]; [|lia].
      rewrite Hp. simpl. lia. }
    rewrite Hstored in Hdoc2.
    split; [intro H; rewrite Hlink; apply Hgo2, Hlf, H|].
    split; [intros w' H; rewrite Hlink in H; now apply Hno2|].
    intros w2 Hrun2. rewrite Hlink in Hrun2. specialize (Hdoc2 w2 Hrun2).
    split; [|split].
    + rewrite Hdoc2, Hdoc1. unfold count. rewrite !count_occ_app.
      do 2 apply Nat.add_le_mono_l.
      exact (count_skipn (ch "]") (consumedTo post 0) post).
    + exists (skipn (consumedTo post 0) post). split; [exact Hdoc2|].
      destruct (consumedTo_head post) as [[-> Hp] | [-> _]]; [now right | now left].
    + intro Hpost.
      assert (Heq : doc (view w2) = doc (view w1)).
      { rewrite Hdoc2, Hdoc1.
        destruct (consumedTo_head post) as [[_ Hp] | [-> _]]; [|reflexivity].
        exfalso. exact (leadingClosers_none Hpost Hp). }
      split; [exact Heq|].
      rewrite Heq, Hdoc1. now apply closers_after_body.
Qed.

End Reapply.

(** A note link applied to the match [[[a] of the document [[[a]]], then
    applied again with the cursor before its closing brackets: both times
    the document ends up as the reference [[[7]]] alone, with two closing
    brackets. *)
Lemma closing_brackets_not_duplicated_witness :
  exists f w1 w2,
    apply (noteOption (Store := Sample.Store) Sample.content (lit "7", None)) = Some f /\
    f 0 3 (Sample.world (lit "[[a]]")) = Returned tt w1 /\
    doc (view w1) = lit "[[7]]" /\
    f 0 3 w1 = Returned tt w2 /\
    doc (view w2) = lit "[[7]]" /\
    count (ch "]") (doc (view w2)) <= count (ch "]") (doc (view w1)).
Proof.
  destruct (apply (noteOption (Store := Sample.Store) Sample.content (lit "7", None)))
    as [f|] eqn:Hf; [|discriminate].
  destruct (@closing_brackets_not_duplicated Sample.Store Sample.parse Sample.format
              Sample.format Sample.content f
              (or_intror (ex_intro _ (lit "7") (ex_intro _ None Hf))))
    as (body & _ & _ & Hbody).
  destruct (Hbody [] (lit "[[a") [] (Sample.world (lit "[[a]]")) eq_refl)
    as (_ & _ & Hafter).
  cbn in Hf. injection Hf as <-.
  set (w1 := {| view := {| doc := lit "[[7]]";
                           selection := {| ranges := [{| anchor := 5; head := 5 |}];
                                           mainIndex := 0 |} |};
                store := @nil Draft.note; clock := 1700000000000%Z |}).
  destruct (Hafter w1 eq_refl) as (Hd1 & Hagain).
  assert (Hlen : 3 = length (@nil cu) + length (lit "[[" ++ lineBreaks body)).
  { apply (f_equal (@length cu)) in Hd1. unfold reference, w1 in Hd1.
    cbn [view doc app] in Hd1. rewrite app_nil_r, !length_app in Hd1.
    rewrite length_app. simpl in Hd1 |- *. lia. }
  destruct (Hagain 3 (or_introl Hlen)) as (_ & _ & Hsecond).
  destruct (Hsecond w1 eq_refl) as (Hcount & _).
  eexists. exists w1, w1. split; [reflexivity|]. split; [reflexivity|].
  split; [reflexivity|]. split; [reflexivity|]. split; [reflexivity | exact Hcount].
Defined.

(** ** The notes the create option makes *)

Section CreatedNotes.

Variable Store : Type.
Variable upsertNoteAtom : Draft.note -> Store -> Store.

(** A dispatch, refused or not, leaves store and clock as they are. *)
Lemma dispatch_store (tr : TransactionSpec) (w : World Store) :
  store (worldAfter (dispatch tr w)) = store w /\
  clock (worldAfter (dispatch tr w)) = clock w.
Proof.
  unfold dispatch. destruct (update (view w) tr); split; reflexivity.
Qed.

(** X6.  Two applications of the create option, whatever the spans and
    whether or not the editor then refuses the link, hand the store notes
    whose ids read back as the clock readings at which they were applied:
    the ids differ exactly when the readings differ, so two notes created
    within one millisecond share their id.  For a query without line feed,
    as the note source hands it over, both applications to spans of the
    document return. *)
Theorem create_note_ids (query : jsstring) (f : nat -> nat -> M Store unit) :
  apply (createNewNoteOption upsertNoteAtom query) = Some f ->
  forall from1 to1 from2 to2 (w1 w2 : World Store),
    exists n1 n2,
      store (worldAfter (f from1 to1 w1)) = upsertNoteAtom n1 (store w1) /\
      store (worldAfter (f from2 to2 w2)) = upsertNoteAtom n2 (store w2) /\
      readInteger (Draft.id n1) = clock w1 /\
      readInteger (Draft.id n2) = clock w2 /\
      (Draft.id n1 = Draft.id n2 <-> clock w1 = clock w2) /\
      (lacks LF query = true ->
       from1 <= to1 -> to1 <= length (doc (view w1)) ->
       from2 <= to2 -> to2 <= length (doc (view w2)) ->
       exists w1' w2',
         f from1 to1 w1 = Returned tt w1' /\ f from2 to2 w2 = Returned tt w2').
Proof.
  intros Hf from1 to1 from2 to2 w1 w2.
  destruct (createNewNoteOption_apply upsertNoteAtom query) as (f' & Hf' & Hrun).
  rewrite Hf in Hf'. injection Hf' as <-.
  eexists _, _. rewrite !Hrun.
  split; [rewrite (proj1 (dispatch_store _ _)); reflexivity|].
  split; [rewrite (proj1 (dispatch_store _ _)); reflexivity|].
  cbn [Draft.id]. split; [apply readInteger_ofZ|]. split; [apply readInteger_ofZ|].
  split; [split; [apply ofZ_inj | intro H; now rewrite H]|].
  intros Hlf H1 H1' H2 H2'.
  destruct (@dispatch_link_lacks_LF Store
              (lit "[[" ++ ofZ (clock w1) ++ lit "|" ++ query ++ lit "]]")
              from1 to1 (afterCreate upsertNoteAtom query w1)
              (create_link_lacks LF (clock w1) _ eq_refl eq_refl eq_refl eq_refl Hlf)
              H1 H1')
    as (w1' & Hr1 & _).
  destruct (@dispatch_link_lacks_LF Store
              (lit "[[" ++ ofZ (clock w2) ++ lit "|" ++ query ++ lit "]]")
              from2 to2 (afterCreate upsertNoteAtom query w2)
              (create_link_lacks LF (clock w2) _ eq_refl eq_refl eq_refl eq_refl Hlf)
              H2 H2')
    as (w2' & Hr2 & _).
  exists w1', w2'. split; [exact Hr1 | exact Hr2].
Qed.

End CreatedNotes.

(** Two create actions on the document [[[gro], one millisecond apart. *)
Lemma create_note_ids_witness :
  exists f n1 n2 w1' w2',
    apply (createNewNoteOption Sample.upsert (lit "gro")) = Some f /\
    f 0 5 (Sample.world (lit "[[gro")) = Returned tt w1' /\
    store w1' = [n1] /\
    f 0 5 {| view := Sample.editor (lit "[[gro"); store := []; clock := 1700000000001 |}
    = Returned tt w2' /\
    store w2' = [n2] /\
    Draft.id n1 <> Draft.id n2.
Proof.
  destruct (apply (createNewNoteOption Sample.upsert (lit "gro"))) as [f|] eqn:Hf;
    [|discriminate].
  destruct (@create_note_ids Sample.Store Sample.upsert (lit "gro") f Hf 0 5 0 5
              (Sample.world (lit "[[gro"))
              {| view := Sample.editor (lit "[[gro"); store := [];
                 clock := 1700000000001 |})
    as (n1 & n2 & Hs1 & Hs2 & _ & _ & Hiff & Hgo).
  destruct Hgo as (w1' & w2' & H1 & H2); try reflexivity; try (vm_compute; lia).
  rewrite H1 in Hs1. rewrite H2 in Hs2.
  exists f, n1, n2, w1', w2'. split; [reflexivity|].
  split; [exact H1|]. split; [exact Hs1|]. split; [exact H2|]. split; [exact Hs2|].
  intro Heq. apply Hiff in Heq. discriminate.
Defined.

(** ** After an option is applied *)

Section AfterApply.

Variable Store : Type.
Variable parseDate : jsstring -> option JsDate.
Variable formatDate : jsstring -> jsstring.
Variable formatDateDistance : jsstring -> jsstring.
Variable parseFrontmatter_content : jsstring -> jsstring.
Variable searchNotes : jsstring -> list (jsstring * option Note).
Variable upsertNoteAtom : Draft.note -> Store -> Store.
Variable getTags : unit -> list (jsstring * list jsstring).

Lemma skipn_snoc (j : nat) (y : jsstring) (b : cu) :
  skipn j (y ++ [b]) = [] \/ exists z, skipn j (y ++ [b]) = z ++ [b].
Proof.
  rewrite skipn_app.
  destruct (Nat.le_gt_cases j (length y)) as [Hle | Hgt].
  - right. exists (skipn j y). replace (j - length y) with 0 by lia. reflexivity.
  - left. rewrite skipn_all2 by lia.
    destruct (j - length y) as [|k] eqn:Ek; [lia|]. simpl. now rewrite skipn_nil.
Qed.

(** No expression of the sources matches a text that ends with a closing
    bracket. *)
Lemma no_match_before_closing (z : jsstring) :
  matches notePattern (z ++ [ch "]"]) = false /\
  matches tagPattern (z ++ [ch "]"]) = false /\
  matches datePattern (z ++ [ch "]"]) = false.
Proof.
  assert (Hin : In (ch "]") (z ++ [ch "]"])) by (apply in_or_app; right; now left).
  assert (Hnote : matches notePattern (z ++ [ch "]"]) = false).
  { destruct (matches notePattern (z ++ [ch "]"])) eqn:E; [|reflexivity].
    apply notePattern_matches in E as (run & Heq & Hq).
    rewrite Heq in Hin. rewrite forallb_forall in Hq.
    apply in_app_or in Hin as [Hin | Hin].
    - destruct Hin as [H | [H | []]]; discriminate.
    - specialize (Hq _ Hin). discriminate. }
  split; [exact Hnote|]. split.
  - destruct (matches tagPattern (z ++ [ch "]"])) eqn:E; [|reflexivity].
    apply tagPattern_matches in E as (run & Heq & Hq).
    rewrite Heq in Hin. rewrite forallb_forall in Hq.
    destruct Hin as [H | Hin]; [discriminate|].
    specialize (Hq _ Hin). discriminate.
  - destruct (matches datePattern (z ++ [ch "]"])) eqn:E; [|reflexivity].
    apply datePattern_matches in E as [E | E]; [congruence|].
    rewrite forallb_forall in E. specialize (E _ Hin). discriminate.
Qed.

Lemma lineBefore_last (context : CompletionContext) (x : jsstring) (b : cu) :
  firstn (pos context) (doc (state context)) = x ++ [b] ->
  N.eqb b LF = false ->
  exists y, lineBefore context = y ++ [b].
Proof.
  intros Hx Hb. unfold lineBefore. rewrite Hx, rev_app_distr.
  cbn [rev app upToBreak]. rewrite Hb. cbn [rev].
  set (u := rev (upToBreak (rev x))).
  exists (skipn (length (u ++ [b]) - 250) u).
  rewrite skipn_app.
  replace (length (u ++ [b]) - 250 - length u) with 0
    by (rewrite length_app; simpl; lia).
  reflexivity.
Qed.

(** After a closing bracket right before the cursor no source answers. *)
Lemma no_source_after_closing (context : CompletionContext) (y : jsstring) :
  lineBefore context = y ++ [ch "]"] ->
  dateCompletion (Store := Store) parseDate formatDate formatDateDistance context = None /\
  noteCompletion parseFrontmatter_content searchNotes upsertNoteAtom context = None /\
  tagCompletion (Store := Store) getTags context = None.
Proof.
  intro Hl.
  assert (Hno : forall j, j < length (lineBefore context) ->
            exists z, skipn j (lineBefore context) = z ++ [ch "]"]).
  { intros j Hj. rewrite Hl in Hj |- *.
    destruct (skipn_snoc j y (ch "]")) as [H | H]; [|exact H].
    apply (f_equal (@length cu)) in H. rewrite length_skipn in H.
    change (length (@nil cu)) with 0 in H. lia. }
  assert (Hnone : forall j z, skipn j (lineBefore context) = z ->
            (z = [] \/ exists z', z = z' ++ [ch "]"])).
  { intros j z <-. rewrite Hl. apply skipn_snoc. }
  split; [|split].
  - unfold dateCompletion. rewrite matchBefore_lineBefore.
    rewrite (@searchToEnd_least datePattern (lineBefore context)
               (length (lineBefore context))).
    + cbn [text]. now rewrite skipn_all.
    + lia.
    + now rewrite skipn_all.
    + intros j Hj. destruct (Hno j Hj) as [z ->]. apply no_match_before_closing.
  - unfold noteCompletion. rewrite matchBefore_lineBefore.
    rewrite searchToEnd_nowhere; [reflexivity|].
    intro j. destruct (Hnone j _ eq_refl) as [-> | [z ->]]; [reflexivity|].
    apply no_match_before_closing.
  - unfold tagCompletion. rewrite matchBefore_lineBefore.
    rewrite searchToEnd_nowhere; [reflexivity|].
    intro j. destruct (Hnone j _ eq_refl) as [-> | [z ->]]; [reflexivity|].
    apply no_match_before_closing.
Qed.

(** The callbacks of the three kinds of options dispatch one link
    transaction whose text ends with a closing bracket, the create option
    after the store has taken its note; the text holds no line feed when
    id and title, or the query, hold none. *)
Lemma option_transaction (f : nat -> nat -> M Store unit) :
  (exists context r o,
     dateCompletion parseDate formatDate formatDateDistance context = Some r /\
     In o (options r) /\ apply o = Some f) \/
  (exists id note,
     apply (noteOption parseFrontmatter_content (id, note)) = Some f /\
     lacks LF (id ++ titleSuffix note) = true) \/
  (exists query,
     apply (createNewNoteOption upsertNoteAtom query) = Some f /\
     lacks LF query = true) ->
  forall from to (w : World Store),
    exists body w0,
      view w0 = view w /\ clock w0 = clock w /\
      lacks LF body = true /\
      f from to w
      = dispatch (linkTransaction (doc (view w)) (body ++ [ch "]"]) from to) w0.
Proof.
  intros [(context & r & o & Hr & Ho & Hf) | [(id & note & Hf & Hlf) | (query & Hf & Hlf)]]
    from to w.
  - apply dateCompletion_inv in Hr
      as (word & date & o' & f' & _ & _ & _ & -> & _ & _ & Hf' & Hrun).
    cbn [options] in Ho. destruct Ho as [<- | []].
    rewrite Hf in Hf'. injection Hf' as <-.
    exists (lit "[[" ++ dateStringOf date ++ lit "]"), w.
    split; [reflexivity|]. split; [reflexivity|]. split.
    + rewrite !lacks_app.
      now rewrite (lacks_class dateUnit LF _ eq_refl (dateStringOf_dateUnit date)).
    + rewrite Hrun. now rewrite <- !app_assoc.
  - destruct (noteOption_apply Store parseFrontmatter_content id note)
      as (f' & Hf' & Hrun).
    rewrite Hf in Hf'. injection Hf' as <-.
    exists (lit "[[" ++ id ++ titleSuffix note ++ lit "]"), w.
    split; [reflexivity|]. split; [reflexivity|]. split.
    + rewrite lacks_app.
      replace (id ++ titleSuffix note ++ lit "]")
        with ((id ++ titleSuffix note) ++ lit "]") by now rewrite <- app_assoc.
      rewrite lacks_app, Hlf. reflexivity.
    + rewrite Hrun. now rewrite <- !app_assoc.
  - destruct (createNewNoteOption_apply upsertNoteAtom query) as (f' & Hf' & Hrun).
    rewrite Hf in Hf'. injection Hf' as <-.
    exists (lit "[[" ++ ofZ (clock w) ++ lit "|" ++ query ++ lit "]"),
           (afterCreate upsertNoteAtom query w).
    split; [reflexivity|]. split; [reflexivity|]. split.
    + rewrite !lacks_app, Hlf.
      now rewrite (lacks_class dateUnit LF _ eq_refl (ofZ_dateUnit (clock w))).
    + rewrite Hrun. now rewrite <- !app_assoc.
Qed.

(** What the document takes of such a text keeps its length and its last
    unit. *)
Lemma closing_text_stored (body : jsstring) :
  lacks LF body = true ->
  lineBreaks (body ++ [ch "]"]) = lineBreaks body ++ [ch "]"] /\
  length (lineBreaks body) = length body.
Proof.
  intro Hlf. split.
  - now apply lineBreaks_snoc.
  - now apply lineBreaks_length_lacks_LF.
Qed.

(** X11.  Once the option of the date source, a listed option of the
    note source whose id and title hold no line feed, or the create option
    of a query without line feed has been applied, whatever the span, none
    of the three sources answers at the cursor it leaves: the cursor
    stands right after the closing brackets of the reference. *)
Theorem no_source_after_insertion (f : nat -> nat -> M Store unit) :
  (exists context r o,
     dateCompletion parseDate formatDate formatDateDistance context = Some r /\
     In o (options r) /\ apply o = Some f) \/
  (exists id note,
     apply (noteOption parseFrontmatter_content (id, note)) = Some f /\
     lacks LF (id ++ titleSuffix note) = true) \/
  (exists query,
     apply (createNewNoteOption upsertNoteAtom query) = Some f /\
     lacks LF query = true) ->
  forall from to (w w' : World Store),
    f from to w = Returned tt w' ->
    dateCompletion (Store := Store) parseDate formatDate formatDateDistance
      (contextOf (view w')) = None /\
    noteCompletion parseFrontmatter_content searchNotes upsertNoteAtom
      (contextOf (view w')) = None /\
    tagCompletion (Store := Store) getTags (contextOf (view w')) = None.
Proof.
  intros Hopt from to w w' Hrun.
  destruct (option_transaction Hopt from to w) as (body & w0 & Hv & _ & Hlf & Hf).
  rewrite Hf in Hrun. apply dispatch_inv in Hrun as (Hft & Hto & _ & Hview & _).
  cbn [linkTransaction changes ch_from ch_to insert sel_anchor] in Hft, Hto, Hview.
  rewrite Hv in Hto, Hview.
  destruct (closing_text_stored body Hlf) as [Hsnoc Hlen].
  rewrite Hsnoc in Hview.
  pose proof (consumedTo_bounds (doc (view w))) as Hb.
  assert (Hfrom : from <= length (doc (view w))) by lia.
  destruct (@lineBefore_last (contextOf (view w'))
              (firstn from (doc (view w)) ++ lineBreaks body) (ch "]")) as [y Hy].
  - rewrite Hview. cbn [contextOf state pos selection cursorAt ranges mainIndex
                          nth_error head doc].
    set (t := lineBreaks body ++ [ch "]"]).
    assert (Ht : length (firstn from (doc (view w)) ++ t)
                 = from + length (body ++ [ch "]"])).
    { subst t. rewrite !length_app, length_firstn, Hlen. lia. }
    rewrite (app_assoc (firstn from (doc (view w))) t), firstn_app, <- Ht, Nat.sub_diag.
    rewrite firstn_all. cbn [firstn]. rewrite app_nil_r.
    subst t. now rewrite app_assoc.
  - reflexivity.
  - now apply no_source_after_closing with (y := y).
Qed.

Lemma In_firstn_results (n : nat) : forall (l : list (jsstring * option Note)) x,
  In x (firstn n l) -> In x l.
Proof.
  induction n as [|n IH]; intros [|y l] x H; simpl in H; try contradiction.
  destruct H as [H | H]; [now left | right; now apply IH].
Qed.

(** X12.  Let the ids and titles the search finds hold no line feed.  An
    option of the date or the note source applied the way the widget
    applies it, from the anchor of its result to the cursor of the
    context, is never refused: the transaction goes through, leaves the
    text before the anchor and the clock as they were, and leaves a cursor
    that lies within the new document. *)
Theorem option_applies_at_anchor (context : CompletionContext) (w : World Store)
  (r : CompletionResult Store) (o : Completion Store) (f : nat -> nat -> M Store unit) :
  (forall q id note, In (id, note) (searchNotes q) ->
     lacks LF (id ++ titleSuffix note) = true) ->
  view w = state context ->
  pos context <= length (doc (state context)) ->
  dateCompletion parseDate formatDate formatDateDistance context = Some r \/
  noteCompletion parseFrontmatter_content searchNotes upsertNoteAtom context = Some r ->
  In o (options r) -> apply o = Some f ->
  exists w',
    f (from r) (pos context) w = Returned tt w' /\
    firstn (from r) (doc (view w')) = firstn (from r) (doc (view w)) /\
    clock w' = clock w /\
    wellFormed (view w').
Proof.
  intros Hfound Hview Hpos Hr Ho Hf.
  assert (Hfrom : from r <= pos context).
  { destruct Hr as [Hr | Hr].
    - apply dateCompletion_inv in Hr as (word & date & o' & f' & Hw & _ & _ & -> & _).
      apply matchBefore_span in Hw as (Hspan & _). cbn [from]. lia.
    - apply noteCompletion_inv in Hr as (word & Hw & -> & _).
      apply matchBefore_span in Hw as (Hspan & _). lia. }
  assert (Hopt :
    (exists context r o,
       dateCompletion parseDate formatDate formatDateDistance context = Some r /\
       In o (options r) /\ apply o = Some f) \/
    (exists id note,
       apply (noteOption parseFrontmatter_content (id, note)) = Some f /\
       lacks LF (id ++ titleSuffix note) = true) \/
    (exists query,
       apply (createNewNoteOption upsertNoteAtom query) = Some f /\
       lacks LF query = true)).
  { destruct Hr as [Hr | Hr]; [left; eauto 6|right].
    apply noteCompletion_inv in Hr as (word & Hw & _ & _ & Hopts).
    rewrite Hopts in Ho. apply in_app_or in Ho as [Ho | Ho].
    - apply in_map_iff in Ho as ([id note] & <- & Hin). left.
      exists id, note. split; [exact Hf|].
      apply (Hfound (skipn 2 (text word))). exact (In_firstn_results _ _ _ Hin).
    - destruct (truthy (skipn 2 (text word))); [|destruct Ho].
      destruct Ho as [<- | []]. right. exists (skipn 2 (text word)).
      split; [exact Hf|].
      exact (proj1 (@note_query_lacks context word Hw)). }
  destruct (option_transaction Hopt (from r) (pos context) w)
    as (body & w0 & Hv & Hc & Hlf & Hrun).
  rewrite <- Hview in Hpos.
  assert (Hlf' : lacks LF (body ++ [ch "]"]) = true)
    by (rewrite lacks_app, Hlf; reflexivity).
  destruct (@dispatch_link_lacks_LF Store (body ++ [ch "]"]) (from r) (pos context) w0
              Hlf')
    as (w' & Hd & (Hdoc & Hsel & _ & Hclock) & Hlen);
    [exact Hfrom | now rewrite Hv |].
  rewrite Hv in Hdoc.
  exists w'. split; [rewrite Hrun; rewrite Hv in Hd; exact Hd|]. split; [|split].
  - rewrite Hdoc, firstn_app, length_firstn.
    replace (from r - Nat.min (from r) (length (doc (view w)))) with 0 by lia.
    cbn [firstn]. rewrite app_nil_r. apply firstn_all2. rewrite length_firstn. lia.
  - congruence.
  - unfold wellFormed. rewrite Hsel. eexists. split; [reflexivity|].
    rewrite rangeTo_cursor, Hdoc, !length_app, length_firstn, Hlen, !length_app. lia.
Qed.

End AfterApply.

(** A note link applied to the match [[[a]: afterwards the note source
    does not answer at the cursor. *)
Lemma no_source_after_insertion_witness :
  exists f w',
    apply (noteOption (Store := Sample.Store) Sample.content (lit "7", None)) = Some f /\
    f 0 3 (Sample.world (lit "[[a")) = Returned tt w' /\
    noteCompletion Sample.content Sample.search Sample.upsert (contextOf (view w'))
    = None.
Proof.
  destruct (apply (noteOption (Store := Sample.Store) Sample.content (lit "7", None)))
    as [f|] eqn:Hf; [|discriminate].
  assert (Hrun : exists w', f 0 3 (Sample.world (lit "[[a")) = Returned tt w').
  { cbn in Hf. injection Hf as <-. eexists. reflexivity. }
  destruct Hrun as [w' Hrun].
  exists f, w'. split; [reflexivity|]. split; [exact Hrun|].
  apply (@no_source_after_insertion Sample.Store Sample.parse Sample.format
           Sample.format Sample.content Sample.search Sample.upsert Sample.tags f
           (or_intror (or_introl (ex_intro _ (lit "7")
              (ex_intro _ None (conj Hf eq_refl)))))
           0 3 (Sample.world (lit "[[a")) w' Hrun).
Defined.

(** The first option of the note source on the document [[[gro], applied
    from its anchor to the cursor. *)
Lemma option_applies_at_anchor_witness :
  exists (r : CompletionResult Sample.Store) o f w',
    noteCompletion Sample.content Sample.search Sample.upsert
      (Sample.context (lit "[[gro")) = Some r /\
    nth_error (options r) 0 = Some o /\
    apply o = Some f /\
    f (from r) 5 (Sample.world (lit "[[gro")) = Returned tt w' /\
    wellFormed (view w').
Proof.
  destruct (noteCompletion Sample.content Sample.search Sample.upsert
              (Sample.context (lit "[[gro"))) as [r|] eqn:Hr; [|discriminate].
  destruct (nth_error (options r) 0) as [o|] eqn:Ho.
  2: { cbn in Hr. injection Hr as <-. discriminate. }
  destruct (apply o) as [f|] eqn:Hf.
  2: { cbn in Hr. injection Hr as <-. cbn in Ho. injection Ho as <-. discriminate. }
  destruct (@option_applies_at_anchor Sample.Store Sample.parse Sample.format
              Sample.format Sample.content Sample.search Sample.upsert
              (Sample.context (lit "[[gro")) (Sample.world (lit "[[gro")) r o f)
    as (w' & Hrun & _ & _ & Hwf).
  - intros q id note [H | []]. injection H as <- <-. reflexivity.
  - reflexivity.
  - vm_compute. lia.
  - right. exact Hr.
  - apply (nth_error_In _ 0 Ho).
  - exact Hf.
  - exists r, o, f, w'. split; [reflexivity|]. split; [exact Ho|].
    split; [exact Hf|]. split; [exact Hrun | exact Hwf].
Defined.

(** ** A link whose text holds line breaks *)

Section LinkOutcome.

Variable Store : Type.
Variable parseFrontmatter_content : jsstring -> jsstring.

(** X16.  A listed note option applied to a span of the document asks
    for the cursor as many units after the anchor as its link text is
    long, while the document takes the link text with every carriage
    return and line feed pair as one line break.  The application goes
    through, leaving the cursor that many units after the anchor, exactly
    when the units that follow the consumed end make up for the ones the
    link text loses; otherwise the editor refuses the transaction and the
    world stays as it was. *)
Theorem note_link_outcome (id : jsstring) (note : option Note) :
  exists f,
    apply (noteOption (Store := Store) parseFrontmatter_content (id, note)) = Some f /\
    forall from to (w : World Store),
      from <= to -> to <= length (doc (view w)) ->
      let text := lit "[[" ++ id ++ titleSuffix note ++ lit "]]" in
      let stored := lit "[[" ++ lineBreaks (id ++ titleSuffix note) ++ lit "]]" in
      let rest := length (doc (view w)) - consumedTo (doc (view w)) to in
      length stored <= length text /\
      (length text <= length stored + rest ->
       exists w',
         f from to w = Returned tt w' /\
         doc (view w')
         = firstn from (doc (view w)) ++ stored
           ++ skipn (consumedTo (doc (view w)) to) (doc (view w)) /\
         selection (view w')
         = {| ranges := [{| anchor := from + length text; head := from + length text |}];
              mainIndex := 0 |} /\
         store w' = store w /\ clock w' = clock w) /\
      (length stored + rest < length text -> f from to w = Thrown w).
Proof.
  destruct (noteOption_apply Store parseFrontmatter_content id note) as (f & Hf & Hrun).
  exists f. split; [exact Hf|].
  intros from to w Hft Hto. cbn zeta.
  assert (Hstored : lineBreaks (lit "[[" ++ id ++ titleSuffix note ++ lit "]]")
                    = lit "[[" ++ lineBreaks (id ++ titleSuffix note) ++ lit "]]").
  { replace (lit "[[" ++ id ++ titleSuffix note ++ lit "]]")
      with (reference (id ++ titleSuffix note))
      by (unfold reference; now rewrite <- app_assoc).
    apply lineBreaks_reference. }
  destruct (dispatch_link (lit "[[" ++ id ++ titleSuffix note ++ lit "]]") w Hft Hto)
    as [Hok Hno].
  rewrite Hstored in Hok, Hno. rewrite Hrun. split; [|split].
  - rewrite <- Hstored. apply lineBreaks_length.
  - intro H. destruct (Hok H) as (w' & Hrun' & Hrep). eauto.
  - exact Hno.
Qed.

End LinkOutcome.

(** The link to a note whose title ends with a carriage return and a line
    feed, applied to the match [[[x] at the end of the document: the
    editor refuses it.  With one more unit after the match it goes
    through, and the cursor is left after that unit. *)
Lemma note_link_outcome_witness :
  let note := Some {| rawBody := lit "t"; title := Some (lit "t" ++ [CR; LF]) |} in
  exists f w',
    apply (noteOption (Store := Sample.Store) Sample.content (lit "7", note)) = Some f /\
    f 0 3 (Sample.world (lit "[[x")) = Thrown (Sample.world (lit "[[x")) /\
    f 0 3 (Sample.world (lit "[[xy")) = Returned tt w' /\
    doc (view w') = lit "[[7|t" ++ [LF] ++ lit "]]y" /\
    selection (view w')
    = {| ranges := [{| anchor := 9; head := 9 |}]; mainIndex := 0 |}.
Proof.
  cbn zeta.
  destruct (@note_link_outcome Sample.Store Sample.content (lit "7")
              (Some {| rawBody := lit "t"; title := Some (lit "t" ++ [CR; LF]) |}))
    as (f & Hf & Hrun).
  destruct (Hrun 0 3 (Sample.world (lit "[[x"))) as (_ & _ & Hno);
    [lia | vm_compute; lia |].
  destruct (Hrun 0 3 (Sample.world (lit "[[xy"))) as (_ & Hok & _);
    [lia | vm_compute; lia |].
  destruct Hok as (w' & Hw' & Hdoc & Hsel & _); [vm_compute; lia|].
  exists f, w'. split; [exact Hf|]. split; [apply Hno; vm_compute; lia|].
  split; [exact Hw'|]. split.
  - rewrite Hdoc. reflexivity.
  - rewrite Hsel. reflexivity.
Defined.

(** ** What the tag source leaves unanswered *)

Lemma In_skipn_units (j : nat) : forall (s : jsstring) (c : cu),
  In c (skipn j s) -> In c s.
Proof.
  induction j as [|j IH]; intros [|x s] c H; simpl in H; try contradiction;
    try exact H.
  right. now apply IH.
Qed.

(** A hash followed by 250 letters, and a hash followed by [caf] and the
    letter e with an acute accent, unit 233: in both documents the text
    that ends at the cursor is a hash followed by letters, and the tag
    source returns nothing.  In the first the hash lies before the 250
    units that [matchBefore] examines; in the second the accented letter
    is no unit of the class of word characters. *)
Lemma tag_provider_anchor_counterexample :
  (let run := repeat (ch "a") 250 in
   let context := Sample.context (ch "#" :: run) in
   firstn (pos context) (doc (state context)) = ch "#" :: run /\
   forallb tagChar run = true /\
   tagCompletion (Store := Sample.Store) Sample.tags context = None) /\
  (let context := Sample.context (lit "#caf" ++ [233%N]) in
   firstn (pos context) (doc (state context)) = lit "#caf" ++ [233%N] /\
   tagCompletion (Store := Sample.Store) Sample.tags context = None).
Proof.
  split.
  - cbn zeta. split; [reflexivity|]. split; [reflexivity|].
    unfold tagCompletion. rewrite matchBefore_lineBefore.
    change (lineBefore (Sample.context (ch "#" :: repeat (ch "a") 250)))
      with (repeat (ch "a") 250).
    rewrite searchToEnd_nowhere; [reflexivity|].
    intro j. destruct (matches tagPattern (skipn j (repeat (ch "a") 250))) eqn:E;
      [|reflexivity].
    exfalso. apply tagPattern_matches in E as (run & Heq & _).
    assert (Hin : In (ch "#") (repeat (ch "a") 250)).
    { apply (In_skipn_units j). rewrite Heq. now left. }
    apply repeat_spec in Hin. discriminate.
  - cbn zeta. split; reflexivity.
Qed.
